(** * ape-starknet: the ABI codec and the proxy probe of [ape_starknet/ecosystems.py]

    A shallow embedding of the [Starknet] ecosystem class: the primitive
    coercer, the value flattener, the calldata encoder, the return-data and
    event-log decoders and the proxy resolver, followed by the properties the
    specification states about them.

    Python values are a tagged union, exceptions are an explicit error result,
    iterators are the list of elements still to be produced, and the functions
    of other packages (the [DataTransformer] packer, the selector hash, the
    address helpers, the provider) are parameters of a [Section]. *)

From Stdlib Require Import ZArith String Ascii List Lia Bool.
From stdpp Require Import base option list list_monad strings gmap.

Import ListNotations.
Set Warnings "-register-all".
Local Open Scope Z_scope.
Local Open Scope list_scope.

(** ** Python values *)

(** The values the codec handles.  [bool] is a subclass of [int] in Python
    ([True == 1]) and is represented by [VInt]; [VHexBytes] is the [HexBytes]
    subclass of [bytes], [VBytes] any other [bytes] object; a [dict] keeps its
    insertion order, so it is an association list. *)
Inductive value : Type :=
| VNone
| VInt (n : Z)
| VStr (s : string)
| VBytes (b : list Byte.byte)
| VHexBytes (b : list Byte.byte)
| VList (l : list value)
| VTuple (l : list value)
| VDict (d : list (string * value)).

(** The exceptions that can leave the modelled code. [NamedError] is any
    exception class that is not a builtin, identified by its class name. *)
Inductive exception : Type :=
| StopIteration
| ValueError
| TypeError
| IndexError
| KeyError
| AttributeError
| RuntimeError
| NamedError (cls : string).

Inductive result (A : Type) : Type :=
| Ok (a : A)
| Raise (e : exception).
Arguments Ok {A} a.
Arguments Raise {A} e.

#[global] Instance result_ret : MRet result := fun _ a => Ok a.
#[global] Instance result_bind : MBind result :=
  fun _ _ f m => match m with Ok a => f a | Raise e => Raise e end.
#[global] Instance result_fmap : FMap result :=
  fun _ _ f m => match m with Ok a => Ok (f a) | Raise e => Raise e end.

(** [bool(v)]: Python truthiness. *)
Definition truthy (v : value) : bool :=
  match v with
  | VNone => false
  | VInt n => negb (n =? 0)
  | VStr s => negb (String.eqb s "")
  | VBytes b | VHexBytes b => negb (Nat.eqb (length b) 0)
  | VList l | VTuple l => negb (Nat.eqb (length l) 0)
  | VDict d => negb (Nat.eqb (length d) 0)
  end.

(** ** Text helpers *)

(** [s.endswith(suffix)] *)
Definition endswith (s suffix : string) : bool :=
  let n := String.length s in
  let m := String.length suffix in
  (m <=? n)%nat && String.eqb (String.substring (n - m) m s) suffix.

(** [s.startswith(prefix)] *)
Fixpoint startswith (s prefix : string) {struct prefix} : bool :=
  match prefix with
  | EmptyString => true
  | String a prefix' =>
      match s with
      | EmptyString => false
      | String b s' => Ascii.eqb a b && startswith s' prefix'
      end
  end.

(** [eth_utils.is_0x_prefixed]: [value.startswith(("0x", "0X"))]. *)
Definition is_0x_prefixed (s : string) : bool :=
  startswith s "0x" || startswith s "0X".

Module PyInt.

(** The builtin [int(text, 16)] on ASCII text: optional surrounding white
    space, an optional sign, an optional [0x]/[0X] prefix, then hexadecimal
    digits that single underscores may separate.  [None] is [ValueError]. *)

Definition is_space (c : ascii) : bool :=
  let n := nat_of_ascii c in
  ((9 <=? n) && (n <=? 13) || (n =? 32))%nat.

Definition hex_digit (c : ascii) : option Z :=
  let n := Z.of_nat (nat_of_ascii c) in
  if (48 <=? n) && (n <=? 57) then Some (n - 48)
  else if (97 <=? n) && (n <=? 102) then Some (n - 87)
  else if (65 <=? n) && (n <=? 70) then Some (n - 55)
  else None.

Fixpoint lstrip (s : string) : string :=
  match s with
  | String c s' => if is_space c then lstrip s' else s
  | EmptyString => s
  end.

Fixpoint all_space (s : string) : bool :=
  match s with
  | String c s' => is_space c && all_space s'
  | EmptyString => true
  end.

(** The digit scan: [prev_digit] tells whether the previous character was a
    digit; an underscore is accepted only between two digits; the scan stops
    at the first other character, after at least one digit. *)
Fixpoint scan_digits (s : string) (acc : Z) (prev_digit : bool)
  : option (Z * string) :=
  match s with
  | EmptyString => if prev_digit then Some (acc, s) else None
  | String c s' =>
      match hex_digit c with
      | Some d => scan_digits s' (16 * acc + d) true
      | None =>
          if Ascii.eqb c "_" then
            if prev_digit then
              match s' with
              | String c' _ =>
                  if is_Some_dec (hex_digit c') then scan_digits s' acc false
                  else None
              | EmptyString => None
              end
            else None
          else if prev_digit then Some (acc, s) else None
      end
  end.

Definition strip_sign (s : string) : Z * string :=
  match s with
  | String "+" s' => (1, s')
  | String "-" s' => (-1, s')
  | _ => (1, s)
  end.

(** After a base prefix one underscore is allowed. *)
Definition strip_prefix (s : string) : string :=
  match s with
  | String "0" (String x s') =>
      if Ascii.eqb x "x" || Ascii.eqb x "X" then
        match s' with
        | String "_" s'' => s''
        | _ => s'
        end
      else s
  | _ => s
  end.

Definition int16 (text : string) : option Z :=
  let '(sign, s) := strip_sign (lstrip text) in
  match scan_digits (strip_prefix s) 0 false with
  | Some (n, rest) => if all_space rest then Some (sign * n) else None
  | None => None
  end.

End PyInt.

(** [int(text, 16)] *)
Definition int_base16 (text : string) : result value :=
  match PyInt.int16 text with
  | Some n => Ok (VInt n)
  | None => Raise ValueError
  end.

(** ** HexBytes *)

Definition hex_char (n : nat) : ascii :=
  if (n <? 10)%nat then ascii_of_nat (48 + n) else ascii_of_nat (87 + n).

(** [bytes.hex()]: two lower-case digits per byte. *)
Fixpoint bytes_hex (b : list Byte.byte) : string :=
  match b with
  | [] => EmptyString
  | x :: b' =>
      let n := Byte.to_nat x in
      String (hex_char (n / 16)) (String (hex_char (n mod 16)) (bytes_hex b'))
  end.

(** [HexBytes.hex()] puts [0x] in front. *)
Definition HexBytes_hex (b : list Byte.byte) : string :=
  String "0" (String "x" (bytes_hex b)).

(** The big-endian number a byte string denotes. *)
Definition int_from_bytes_big (b : list Byte.byte) : Z :=
  fold_left (fun acc x => 256 * acc + Z.of_nat (Byte.to_nat x)) b 0.

(** The number a string of hexadecimal digits denotes in base 16, most
    significant digit first; [None] when a character is no digit. *)
Fixpoint hex_value (digits : string) (acc : Z) : option Z :=
  match digits with
  | EmptyString => Some acc
  | String c digits' =>
      match PyInt.hex_digit c with
      | Some d => hex_value digits' (16 * acc + d)
      | None => None
      end
  end.

(** ** PrimitiveCoercer and ValueFlattener *)

Definition encode_primitive_value (v : value) : result value :=
  match v with
  | VInt _ => Ok v
  | VStr s => if is_0x_prefixed s then int_base16 s else Ok v
  | VHexBytes b => int_base16 (HexBytes_hex b)
  | _ => Ok v
  end.

(** [_pre_encode_value], with [_pre_encode_struct] and the list branch of
    [_pre_encode_array] inline: the three are mutually recursive in the source
    and a [tuple] comes back as a [list]. *)
Fixpoint _pre_encode_value (v : value) : result value :=
  match v with
  | VDict d =>
      VDict <$> mapM (fun kv => x ← _pre_encode_value kv.2; mret (kv.1, x)) d
  | VList l | VTuple l => VList <$> mapM _pre_encode_value l
  | _ => encode_primitive_value v
  end.

Definition _pre_encode_struct (d : list (string * value)) : result value :=
  VDict <$> mapM (fun kv => x ← _pre_encode_value kv.2; mret (kv.1, x)) d.

Definition _pre_encode_array (array : value) : result value :=
  match array with
  | VList l | VTuple l => VList <$> mapM _pre_encode_value l
  | _ => VList <$> mapM _pre_encode_value [array]
  end.

(** ** Signatures *)

(** [ABIType] / [EventABIType]: a parameter of a method or a field of an
    event.  The name is optional in the source. *)
Record ABIType : Type := { name : option string; type : string }.

Record MethodABI : Type := {
  method_name : string;
  inputs : list ABIType;
  outputs : list ABIType
}.

Record EventABI : Type := {
  event_name : string;
  event_inputs : list ABIType
}.

(** [itertools.zip_longest(l, k)] with the fill value [None]. *)
Fixpoint zip_longest {A B : Type} (l : list A) (k : list B)
  : list (option A * option B) :=
  match l with
  | [] => (fun y => (None, Some y)) <$> k
  | x :: l' =>
      match k with
      | [] => (Some x, None) :: zip_longest l' []
      | y :: k' => (Some x, Some y) :: zip_longest l' k'
      end
  end.

(** ** Iterators *)

(** A computation that draws from [iter_data]: the state is the list of
    elements the iterator has not produced yet. *)
Definition iterM (A : Type) : Type := list value -> result (A * list value).

#[global] Instance iterM_ret : MRet iterM := fun _ a it => Ok (a, it).
#[global] Instance iterM_bind : MBind iterM :=
  fun _ _ f m it =>
    match m it with
    | Ok (a, it') => f a it'
    | Raise e => Raise e
    end.

Definition iter_raise {A : Type} (e : exception) : iterM A := fun _ => Raise e.

(** [next(iter_data)] *)
Definition next : iterM value :=
  fun it =>
    match it with
    | [] => Raise StopIteration
    | x :: it' => Ok (x, it')
    end.

(** [[next(iter_data) for _ in range(n)]] *)
Fixpoint next_n (n : nat) : iterM (list value) :=
  match n with
  | O => mret []
  | S n' => x ← next; xs ← next_n n'; mret (x :: xs)
  end.

(** [range(v)] needs an [int]; a negative bound gives the empty range. *)
Definition range_length (v : value) : result nat :=
  match v with
  | VInt n => Ok (Z.to_nat n)
  | _ => Raise TypeError
  end.

(** ** ReturnDataDecoder *)

Definition next_is_array (abi_output_next : option ABIType) : bool :=
  match abi_output_next with
  | Some nxt => String.eqb nxt.(type) "felt*"
  | None => false
  end.

(** One round of the loop of [decode_returndata]. *)
Definition decode_output (abi_output_cur abi_output_next : option ABIType)
    (decoded : list value) : iterM (list value) :=
  match abi_output_cur with
  | None => iter_raise AttributeError
  | Some cur =>
      if String.eqb cur.(type) "Uint256" then
        low ← next; high ← next; mret (decoded ++ [VTuple [low; high]])
      else if String.eqb cur.(type) "felt" && next_is_array abi_output_next then
        array_len ← next;
        match range_length array_len with
        | Ok n => items ← next_n n; mret (decoded ++ [VList items])
        | Raise e => iter_raise e
        end
      else if String.eqb cur.(type) "felt*" then mret decoded
      else x ← next; mret (decoded ++ [x])
  end.

Fixpoint decode_outputs (pairs : list (option ABIType * option ABIType))
    (decoded : list value) : iterM (list value) :=
  match pairs with
  | [] => mret decoded
  | (cur, nxt) :: pairs' =>
      decoded' ← decode_output cur nxt decoded; decode_outputs pairs' decoded'
  end.

(** The condition of the final unwrap. *)
Definition keep_only_expected (outs : list ABIType) : bool :=
  Nat.eqb (length outs) 1
  || (Nat.eqb (length outs) 2
      && match outs !! 1%nat with
         | Some o => String.eqb o.(type) "felt*"
         | None => false
         end).

Definition decode_returndata (abi : MethodABI) (raw_data : list value)
  : result value :=
  match raw_data with
  | [] => Ok (VList raw_data)
  | _ =>
      raw_data ← mapM encode_primitive_value raw_data;
      if Nat.eqb (length raw_data) 1 then
        match raw_data !! 0%nat with
        | Some x => Ok x
        | None => Raise IndexError
        end
      else
        match decode_outputs (zip_longest abi.(outputs) (tail abi.(outputs)))
                [] raw_data with
        | Raise e => Raise e
        | Ok (decoded, _) =>
            if keep_only_expected abi.(outputs) then
              match decoded !! 0%nat with
              | Some x => Ok x
              | None => Raise IndexError
              end
            else Ok (VList decoded)
        end
  end.

(** ** EventLogDecoder *)

Definition decode_item (abi_type : ABIType) (decoded : list value)
  : iterM (list value) :=
  if String.eqb abi_type.(type) "Uint256" then
    low ← next; high ← next; mret (decoded ++ [VTuple [low; high]])
  else x ← next; mret (decoded ++ [x]).

Fixpoint decode_items_loop (abi_types : list ABIType) (decoded : list value)
  : iterM (list value) :=
  match abi_types with
  | [] => mret decoded
  | abi_type :: abi_types' =>
      decoded' ← decode_item abi_type decoded;
      decode_items_loop abi_types' decoded'
  end.

(** The inner function [decode_items] of [decode_logs]. *)
Definition decode_items (abi_types : list ABIType) (data : list value)
  : result (list value) :=
  fst <$> decode_items_loop abi_types [] data.

(** ** CalldataEncoder *)

(** The variables the loop of [encode_calldata] updates. *)
Record encoder_state : Type := {
  pre_encoded_args : list value;
  index : nat;
  did_process_array_during_arr_len : bool
}.

(** The test of the [elif] branch.  [and] is short-circuit, so the look-ahead
    [method_abi.inputs[index + 1]] is evaluated only when the tests before it
    hold. *)
Definition is_arr_len (method_inputs : list ABIType) (last_index : Z)
    (index : nat) (input_type : ABIType) : result bool :=
  match input_type.(name) with
  | None => Ok false
  | Some input_name =>
      if endswith input_name "_len" && (Z.of_nat index <? last_index) then
        match method_inputs !! S index with
        | Some nxt => Ok (endswith nxt.(type) "*")
        | None => Raise IndexError
        end
      else Ok false
  end.

(** The body of the loop, for one pair of [zip(call_args, method_abi.inputs)].
    The [continue] of the first branch leaves [index] as it is. *)
Definition encode_arg (method_inputs : list ABIType) (call_args : list value)
    (last_index : Z) (st : encoder_state) (call_arg : value)
    (input_type : ABIType) : result encoder_state :=
  let append x :=
    {| pre_encoded_args := st.(pre_encoded_args) ++ [x];
       index := S st.(index);
       did_process_array_during_arr_len :=
         st.(did_process_array_during_arr_len) |} in
  if endswith input_type.(type) "*" then
    if st.(did_process_array_during_arr_len) then
      Ok {| pre_encoded_args := st.(pre_encoded_args);
            index := st.(index);
            did_process_array_during_arr_len := false |}
    else
      encoded_arg ← _pre_encode_value call_arg; mret (append encoded_arg)
  else
    arr_len ← is_arr_len method_inputs last_index st.(index) input_type;
    if arr_len : bool then
      pre_encoded_arg ← _pre_encode_value call_arg;
      match pre_encoded_arg with
      | VInt _ =>
          let array_index := S st.(index) in
          match call_args !! array_index with
          | None => Raise IndexError
          | Some array =>
              pre_encoded_array ← _pre_encode_array array;
              mret {| pre_encoded_args :=
                        st.(pre_encoded_args) ++ [pre_encoded_array];
                      index := S st.(index);
                      did_process_array_during_arr_len := true |}
          end
      | _ => mret (append pre_encoded_arg)
      end
    else
      encoded_arg ← _pre_encode_value call_arg; mret (append encoded_arg).

Fixpoint encode_args_loop (method_inputs : list ABIType)
    (call_args : list value) (last_index : Z)
    (pairs : list (value * ABIType)) (st : encoder_state)
  : result encoder_state :=
  match pairs with
  | [] => Ok st
  | (call_arg, input_type) :: pairs' =>
      st' ← encode_arg method_inputs call_args last_index st call_arg
              input_type;
      encode_args_loop method_inputs call_args last_index pairs' st'
  end.

(** Lines 143 to 176 of [encode_calldata]: the list handed to the packer. *)
Definition pre_encode_args (method_inputs : list ABIType)
    (call_args : list value) : result (list value) :=
  let last_index :=
    Z.of_nat (Nat.min (length method_inputs) (length call_args)) - 1 in
  pre_encoded_args <$>
    encode_args_loop method_inputs call_args last_index
      (zip call_args method_inputs)
      {| pre_encoded_args := []; index := 0;
         did_process_array_during_arr_len := false |}.

(** A [struct] entry of the contract's full ABI. *)
Record StructABI : Type := {
  struct_name : string;
  members : list ABIType
}.

Section Encoder.

(** [DataTransformer] of starknet_py, built from the full ABI and the
    method before the loop starts; its [from_python] packs the pre-encoded
    arguments into calldata. *)
Variable DataTransformer :
  list StructABI -> MethodABI -> result (list value -> result (list Z)).

Definition encode_calldata (full_abi : list StructABI)
    (method_abi : MethodABI) (call_args : list value) : result (list Z) :=
  from_python ← DataTransformer full_abi method_abi;
  pre_encoded_args ← pre_encode_args method_abi.(inputs) call_args;
  from_python pre_encoded_args.

End Encoder.

(** ** The packer *)

Module Packer.

Definition element_type (ty : string) : string :=
  String.substring 0 (String.length ty - 1) ty.

Definition find_struct (full_abi : list StructABI) (ty : string)
  : option StructABI :=
  List.find (fun s => String.eqb s.(struct_name) ty) full_abi.

Definition key_is (member_name : option string) (k : string) : bool :=
  match member_name with
  | Some m => String.eqb m k
  | None => false
  end.

(** The modulus of the field of the virtual machine,
    [2^251 + 17 * 2^192 + 1]: a field element is an integer of
    [[0, FIELD_PRIME)]. *)
Definition FIELD_PRIME : Z := 2 ^ 251 + 17 * 2 ^ 192 + 1.

Definition is_field_element (n : Z) : bool := (0 <=? n) && (n <? FIELD_PRIME).

(** Modelled from the spec: the packing of one value by the ABI-structural
    packer ([DataTransformer.from_python] of starknet_py, which is not among
    the sources).  Section 4.3 step 4: it "performs struct field ordering,
    automatic length-prefix emission for arrays, and WideInt splitting for
    wide-integer-typed fields"; an unresolvable struct is a
    [SignatureResolutionError]; a value of the wrong shape is the "type
    mismatch during packing" of section 4.1; a field element is
    "non-negative, bounded by field modulus" and a wide integer "a logical
    256-bit unsigned integer" (section 3), and the packer is where an
    integer outside these ranges is refused, with [ValueError]. *)
Fixpoint pack_value (full_abi : list StructABI) (ty : string) (v : value)
    {struct v} : result (list Z) :=
  if endswith ty "*" then
    match v with
    | VList l | VTuple l =>
        items ← mapM (pack_value full_abi (element_type ty)) l;
        mret (Z.of_nat (length l) :: concat items)
    | _ => Raise TypeError
    end
  else if String.eqb ty "felt" then
    match v with
    | VInt n => if is_field_element n then Ok [n] else Raise ValueError
    | _ => Raise TypeError
    end
  else if String.eqb ty "Uint256" then
    match v with
    | VInt n =>
        if (0 <=? n) && (n <? 2 ^ 256) then Ok [n mod 2 ^ 128; n / 2 ^ 128]
        else Raise ValueError
    | _ => Raise TypeError
    end
  else
    match find_struct full_abi ty with
    | None => Raise (NamedError "SignatureResolutionError")
    | Some s =>
        match v with
        | VDict d =>
            @concat Z <$>
              mapM (fun m =>
                      (fix field (d' : list (string * value)) :=
                         match d' with
                         | [] => Raise KeyError
                         | (k, x) :: d'' =>
                             if key_is m.(name) k
                             then pack_value full_abi m.(type) x
                             else field d''
                         end) d)
                   s.(members)
        | _ => Raise TypeError
        end
    end.

(** Modelled from the spec: an input is a length slot when it is named with
    the [_len] suffix and the next input has an array-marker type (section
    4.3 step 2 and section 9); the packer fills it from the array's size. *)
Definition is_length_slot (t : ABIType) (rest : list ABIType) : bool :=
  match t.(name), rest with
  | Some n, nxt :: _ => endswith n "_len" && endswith nxt.(type) "*"
  | _, _ => false
  end.

(** Modelled from the spec: the packer walks the inputs in order; a length
    slot takes no argument, every other input takes the next positional
    argument; too few or too many arguments are a [TypeError]. *)
Fixpoint pack_inputs (full_abi : list StructABI) (ins : list ABIType)
    (args : list value) : result (list Z) :=
  match ins with
  | [] =>
      match args with
      | [] => Ok []
      | _ :: _ => Raise TypeError
      end
  | t :: ins' =>
      if is_length_slot t ins' then pack_inputs full_abi ins' args
      else
        match args with
        | [] => Raise TypeError
        | a :: args' =>
            xs ← pack_value full_abi t.(type) a;
            ys ← pack_inputs full_abi ins' args';
            mret (xs ++ ys)
        end
  end.

(** Modelled from the spec: building the packer from the full ABI and the
    method does not fail; its [from_python] is [pack_inputs] on the inputs of
    the method. *)
Definition DataTransformer (full_abi : list StructABI)
    (method_abi : MethodABI) : result (list value -> result (list Z)) :=
  Ok (pack_inputs full_abi method_abi.(inputs)).

End Packer.

(** ** Event logs *)

(** A raw log: the fields [decode_logs] reads from the dictionary. *)
Record RawLog : Type := {
  keys : list Z;
  data : list value;
  transaction_hash : value;
  block_hash : value;
  block_number : value
}.

Record ContractLog : Type := {
  log_name : string;
  log_index : nat;
  event_arguments : list (option string * value);
  log_transaction_hash : value;
  log_block_hash : value;
  log_block_number : value
}.

Definition option_string_eqb (a b : option string) : bool :=
  match a, b with
  | Some x, Some y => String.eqb x y
  | None, None => true
  | _, _ => false
  end.

(** [d[k] = v] on an insertion-ordered dictionary. *)
Fixpoint dict_set {V : Type} (d : list (option string * V))
    (k : option string) (v : V) : list (option string * V) :=
  match d with
  | [] => [(k, v)]
  | (k', v') :: d' =>
      if option_string_eqb k' k then (k', v) :: d'
      else (k', v') :: dict_set d' k v
  end.

(** [dict(pairs)] *)
Definition dict_of {V : Type} (pairs : list (option string * V))
  : list (option string * V) :=
  fold_left (fun d kv => dict_set d kv.1 kv.2) pairs [].

Definition dict_get {V : Type} (d : list (option string * V))
    (k : option string) : option V :=
  snd <$> List.find (fun kv => option_string_eqb kv.1 k) d.

(** An exception that leaves the body of a generator: [StopIteration] is
    turned into [RuntimeError] (PEP 479), the others pass. *)
Definition generator_exit (e : exception) : exception :=
  match e with
  | StopIteration => RuntimeError
  | _ => e
  end.

Section Logs.

(** [get_selector_from_name] of starkware. *)
Variable get_selector_from_name : string -> Z.

Definition is_matching_log (abi : EventABI) (log : RawLog) : bool :=
  existsb (Z.eqb (get_selector_from_name abi.(event_name))) log.(keys).

(** The [for] loop of the generator over [enumerate(matching_logs)], from
    [index] on: the logs it yields and the exception that ends it, if any. *)
Fixpoint yield_logs (abi : EventABI) (index : nat)
    (matching_logs : list RawLog) : list ContractLog * option exception :=
  match matching_logs with
  | [] => ([], None)
  | log :: logs' =>
      match decode_items abi.(event_inputs) log.(data) with
      | Raise e => ([], Some (generator_exit e))
      | Ok decoded =>
          let event_args :=
            dict_of (zip (name <$> abi.(event_inputs)) decoded) in
          let '(later, stop) := yield_logs abi (S index) logs' in
          ({| log_name := abi.(event_name);
              log_index := index;
              event_arguments := event_args;
              log_transaction_hash := log.(transaction_hash);
              log_block_hash := log.(block_hash);
              log_block_number := log.(block_number) |} :: later, stop)
      end
  end.

Definition decode_logs (abi : EventABI) (raw_logs : list RawLog)
  : list ContractLog * option exception :=
  yield_logs abi 0 (List.filter (is_matching_log abi) raw_logs).

End Logs.

(** ** ProxyResolver *)

Inductive ProxyType : Type := LEGACY | ARGENT_X | OPEN_ZEPPELIN.

Record StarknetProxy : Type := {
  target : string;
  proxy_type : ProxyType
}.

(** What [get_proxy_info] uses of a [ContractInstance]: the names of the view
    methods of its contract type and the outcome of calling the two getters. *)
Record ContractInstance : Type := {
  view_methods : list string;
  implementation : result value;
  get_implementation : result value
}.

(** The calls to the outside, in the order they are made. *)
Inductive probe : Type :=
| InstanceAt (address : string)
| CallImplementation
| CallGetImplementation
| GetStorageAt (contract_address key : Z).

(** A computation that records its probes and may raise. *)
Definition probeM (A : Type) : Type := (list probe * result A)%type.

#[global] Instance probeM_ret : MRet probeM := fun _ a => ([], Ok a).
#[global] Instance probeM_bind : MBind probeM :=
  fun _ _ f m =>
    match m with
    | (tr, Ok a) => let '(tr', r) := f a in (tr ++ tr', r)
    | (tr, Raise e) => (tr, Raise e)
    end.

Definition probing {A : Type} (p : probe) (r : result A) : probeM A := ([p], r).
Definition silent {A : Type} (r : result A) : probeM A := ([], r).

Definition has_method (method : string) (methods : list string) : bool :=
  existsb (String.eqb method) methods.

(** [target == "0x0"]: only a string equals a string. *)
Definition is_zero_sentinel (target : value) : bool :=
  match target with
  | VStr s => String.eqb s "0x0"
  | _ => false
  end.

Section Proxy.

(** [chain_manager.contracts.instance_at]; [None] is a result that is not a
    [ContractInstance]. *)
Variable instance_at : string -> result (option ContractInstance).
(** [provider.client], when there is one: its [get_storage_at_sync]. *)
Variable client : option (Z -> Z -> result value).
Variable OZ_PROXY_STORAGE_KEY : Z.
(** [parse_address] of starknet_py and [to_checksum_address] of
    [ape_starknet.utils]. *)
Variable parse_address : string -> result Z.
Variable to_checksum_address : value -> result string.

Definition encode_address (address : string) : result Z :=
  parse_address address.
Definition decode_address (raw_address : value) : result string :=
  to_checksum_address raw_address.

(** The second [instance_at] of a branch, followed by the getter call. *)
Definition call_getter (address : string) (p : probe)
    (getter : ContractInstance -> result value) : probeM value :=
  instance ← probing (InstanceAt address) (instance_at address);
  match instance with
  | Some i => probing p (getter i)
  | None => silent (Raise AttributeError)
  end.

(** The three checks: the target and the proxy type they leave. *)
Definition probe_proxy (address : string) (contract : ContractInstance)
  : probeM (value * option ProxyType) :=
  if has_method "implementation" contract.(view_methods) then
    target ← call_getter address CallImplementation implementation;
    mret (target, Some LEGACY)
  else if has_method "get_implementation" contract.(view_methods) then
    target ← call_getter address CallGetImplementation get_implementation;
    mret (target, Some ARGENT_X)
  else
    match client with
    | Some get_storage_at_sync =>
        address_int ← silent (encode_address address);
        target ← probing (GetStorageAt address_int OZ_PROXY_STORAGE_KEY)
                   (get_storage_at_sync address_int OZ_PROXY_STORAGE_KEY);
        if is_zero_sentinel target then mret (VNone, None)
        else mret (target, Some OPEN_ZEPPELIN)
    | None => mret (VNone, None)
    end.

(** The [return] expression: a descriptor when the target and the proxy type
    are both truthy.  A member of the enumeration is truthy, [None] is not. *)
Definition proxy_info (target : value) (proxy_type : option ProxyType)
  : result (option StarknetProxy) :=
  match proxy_type with
  | Some kind =>
      if truthy target then
        checksum ← decode_address target;
        mret (Some {| target := checksum; proxy_type := kind |})
      else mret None
  | None => mret None
  end.

Definition get_proxy_info (address : string)
  : probeM (option StarknetProxy) :=
  contract ← probing (InstanceAt address) (instance_at address);
  match contract with
  | None => mret None
  | Some contract =>
      found ← probe_proxy address contract;
      silent (proxy_info found.1 found.2)
  end.

End Proxy.

(** ** What a signature requires of the raw data *)

(** The number of raw elements an event signature requires: two per wide
    integer, one per other field. *)
Fixpoint required_items (abi_types : list ABIType) : nat :=
  match abi_types with
  | [] => 0
  | abi_type :: abi_types' =>
      (if String.eqb abi_type.(type) "Uint256" then 2 else 1)
      + required_items abi_types'
  end.

(** The number of raw elements the walk of [decode_returndata] requires of
    integer data: two per wide integer, one plus the announced length per
    array, none for the array marker that follows its length, one per other
    output.  The length of an array is read from the data itself. *)
Fixpoint required_outputs (pairs : list (option ABIType * option ABIType))
    (raw : list Z) : nat :=
  match pairs with
  | [] => 0
  | (None, _) :: _ => 0
  | (Some cur, nxt) :: pairs' =>
      if String.eqb cur.(type) "Uint256" then
        2 + required_outputs pairs' (drop 2 raw)
      else if String.eqb cur.(type) "felt" && next_is_array nxt then
        match raw with
        | [] => 1
        | n :: raw' =>
            1 + Z.to_nat n + required_outputs pairs' (drop (Z.to_nat n) raw')
        end
      else if String.eqb cur.(type) "felt*" then required_outputs pairs' raw
      else 1 + required_outputs pairs' (drop 1 raw)
  end.

(** The index, in what the walk of [decode_returndata] has decoded, of the
    entry of the output at [index]: every output before it has left one
    entry, an array marker none. *)
Definition entries_before (outs : list ABIType) (index : nat) : nat :=
  length (List.filter (fun t => negb (String.eqb t.(type) "felt*"))
            (take index outs)).

(** ** Encoding, then decoding against the same signature *)

(** A scalar entry of a signature. *)
Definition is_felt (t : ABIType) : Prop := t.(type) = "felt"%string.

Definition signature_method (sig : list ABIType) : MethodABI :=
  {| method_name := "f"; inputs := sig; outputs := sig |}.

(** [decode(sig, encode(sig, v))], the packer being the one of [Packer]. *)
Definition roundtrip (full_abi : list StructABI) (sig : list ABIType)
    (v : list value) : result value :=
  calldata ← encode_calldata Packer.DataTransformer full_abi
               (signature_method sig) v;
  decode_returndata (signature_method sig) (VInt <$> calldata).

(** ** Signatures and data of the examples *)

Module Examples.

Definition field (n t : string) : ABIType := {| name := Some n; type := t |}.

Definition returns (outs : list ABIType) : MethodABI :=
  {| method_name := "get"; inputs := []; outputs := outs |}.

Definition takes (ins : list ABIType) : MethodABI :=
  {| method_name := "set"; inputs := ins; outputs := [] |}.

Definition wide : list ABIType := [field "a" "Uint256"].
Definition scalar_wide : list ABIType :=
  [field "a" "felt"; field "b" "Uint256"].
Definition len_arr : list ABIType :=
  [field "arr_len" "felt"; field "arr" "felt*"].
Definition two_arrays : list ABIType :=
  [field "a_len" "felt"; field "a" "felt*";
   field "b_len" "felt"; field "b" "felt*"].
Definition lone_marker : list ABIType := [field "arr" "felt*"].

Definition Point : StructABI :=
  {| struct_name := "Point";
     members := [field "x" "felt"; field "y" "felt"] |}.
Definition point_sig : list ABIType := [field "p" "Point"].
Definition point_1_2 : value := VDict [("x", VInt 1); ("y", VInt 2)].

Definition ints (l : list Z) : list value := VInt <$> l.

Definition Transfer (ins : list ABIType) : EventABI :=
  {| event_name := "Transfer"; event_inputs := ins |}.

Definition raw_log (k : list Z) (d : list Z) : RawLog :=
  {| keys := k; data := ints d; transaction_hash := VStr "0x1";
     block_hash := VStr "0x2"; block_number := VInt 1 |}.

(** A contract that declares both getters, and its surroundings. *)
Definition both_getters : ContractInstance :=
  {| view_methods := ["get_implementation"; "implementation"];
     implementation := Ok (VInt 291);
     get_implementation := Ok (VInt 564) |}.
Definition no_getter : ContractInstance :=
  {| view_methods := ["balance_of"];
     implementation := Raise AttributeError;
     get_implementation := Raise AttributeError |}.
Definition checksum (v : value) : result string :=
  match v with
  | VInt _ => Ok "0x0123"
  | VStr s => Ok s
  | _ => Raise TypeError
  end.
Definition zero_slot : option (Z -> Z -> result value) :=
  Some (fun _ _ => Ok (VStr "0x0")).

End Examples.

(** ** Values in pre-encoded form *)

(** What the flattener leaves behind: no [tuple], no [HexBytes] and no
    hex-prefixed string, at any depth. *)
Fixpoint pre_encoded (v : value) : bool :=
  match v with
  | VNone | VInt _ | VBytes _ => true
  | VStr s => negb (is_0x_prefixed s)
  | VHexBytes _ | VTuple _ => false
  | VList l => forallb pre_encoded l
  | VDict d => forallb (fun kv => pre_encoded kv.2) d
  end.

(** ** The state of the encoder loop *)

(** [last_index] of [encode_calldata]. *)
Definition last_index_of (method_inputs : list ABIType)
    (call_args : list value) : Z :=
  Z.of_nat (Nat.min (length method_inputs) (length call_args)) - 1.

Definition has_array_type (t : ABIType) : bool := endswith t.(type) "*".

(** How the loop variables stand before position [p] of the zipped pairs:
    in step with the position; or just after a length slot took the array
    that comes next; or, once that array has been skipped, one behind. *)
Inductive loop_phase (method_inputs : list ABIType) (last_index : Z)
    (p : nat) (st : encoder_state) : Prop :=
| in_step :
    st.(index) = p -> length st.(pre_encoded_args) = p ->
    st.(did_process_array_during_arr_len) = false ->
    loop_phase method_inputs last_index p st
| array_taken (t : ABIType) :
    st.(index) = p -> length st.(pre_encoded_args) = p ->
    st.(did_process_array_during_arr_len) = true ->
    Z.of_nat p <= last_index ->
    method_inputs !! p = Some t -> has_array_type t = true ->
    loop_phase method_inputs last_index p st
| one_behind :
    S st.(index) = p -> S (length st.(pre_encoded_args)) = p ->
    st.(did_process_array_during_arr_len) = false ->
    loop_phase method_inputs last_index p st.

(** ** The raw elements behind decoded entries *)

(** The raw elements an entry decoded for [abi_type] was made of: the two of
    a wide integer, the one of any other field. *)
Definition entry_elements (abi_type : ABIType) (entry : value) : list value :=
  if String.eqb abi_type.(type) "Uint256" then
    match entry with
    | VTuple parts => parts
    | _ => [entry]
    end
  else [entry].

Definition entries_elements (abi_types : list ABIType)
    (entries : list value) : list value :=
  concat (zip_with entry_elements abi_types entries).

(** ** Decoded logs and the raw logs they come from *)

(** The log [decode_logs] yields for a raw log, at [index], from the decoded
    items. *)
Definition log_of (abi : EventABI) (index : nat) (log : RawLog)
    (decoded : list value) : ContractLog :=
  {| log_name := abi.(event_name);
     log_index := index;
     event_arguments := dict_of (zip (name <$> abi.(event_inputs)) decoded);
     log_transaction_hash := log.(transaction_hash);
     log_block_hash := log.(block_hash);
     log_block_number := log.(block_number) |}.

(** A probe proper, as opposed to the lookup of the contract instance. *)
Definition is_probe_call (p : probe) : bool :=
  match p with
  | InstanceAt _ => false
  | _ => true
  end.

(** An [int] object. *)
Definition is_int (v : value) : bool :=
  match v with
  | VInt _ => true
  | _ => false
  end.

(** ** Transactions *)

(** [TransactionType] of starkware: the three members [create_transaction]
    names, and any further member of the enumeration. *)
Inductive TransactionType : Type :=
| INVOKE_FUNCTION
| DEPLOY
| DECLARE
| OTHER_TRANSACTION_TYPE (member : string).

Inductive TransactionClass : Type :=
| InvokeFunctionTransaction
| DeployTransaction
| DeclareTransaction.

(** The keyword arguments of [create_transaction]: the entry [method_abi],
    when present, holds a method; every other entry holds a plain value. *)
Record keywords : Type := {
  method_abi : option MethodABI;
  entries : gmap string value
}.

(** The call of [txn_cls] on the entries of [txn_data] the function ends
    with.  [txn_cls] is
    [None] when the local name was never assigned: the call then raises
    [UnboundLocalError]. *)
Record constructor_call : Type := {
  txn_cls : option TransactionClass;
  txn_method_abi : option MethodABI;
  txn_data : gmap string value
}.

(** [for v in x]: the items a value yields when iterated. *)
Definition iterate (x : value) : result (list value) :=
  match x with
  | VList l | VTuple l => Ok l
  | VStr s => Ok ((fun c => VStr (String c EmptyString))
                    <$> list_ascii_of_string s)
  | VBytes b | VHexBytes b => Ok ((fun c => VInt (Z.of_nat (Byte.to_nat c)))
                                    <$> b)
  | VDict d => Ok ((fun kv => VStr kv.1) <$> d)
  | VNone | VInt _ => Raise TypeError
  end.

(** [d[k]] *)
Definition subscript (d : gmap string value) (k : string) : result value :=
  match d !! k with
  | Some v => Ok v
  | None => Raise KeyError
  end.

(** [selector == selector_to_check], the right side an [int]. *)
Definition selector_matches (selector : value) (selector_to_check : Z) : bool :=
  match selector with
  | VInt n => n =? selector_to_check
  | _ => false
  end.

Section Transactions.

(** [TransactionType(x)], the provider's [chain_id] when there is an active
    provider, [to_checksum_address], [chain_manager.contracts.get] (the
    mutable methods of the contract type it finds) and
    [get_selector_from_name]. *)
Variable transaction_type_of : value -> result TransactionType.
Variable active_provider_chain_id : option (result value).
Variable to_checksum_address : value -> result string.
Variable contracts_get : string -> option (list MethodABI).
Variable get_selector_from_name : string -> Z.

(** The loop over [contract.mutable_methods]: every match overwrites
    [txn_data["method_abi"]]. *)
Definition select_method (selector : value) (mutable_methods : list MethodABI)
  : option MethodABI :=
  fold_left
    (fun found abi =>
       if selector_matches selector
            (get_selector_from_name abi.(method_name))
       then Some abi else found)
    mutable_methods None.

(** Lines 320 to 335: the method of an invoke transaction that comes without
    one. *)
Definition lookup_method (txn_data : gmap string value)
  : result (option MethodABI) :=
  contract_int ← subscript txn_data "contract_address";
  contract_str ← to_checksum_address contract_int;
  match contracts_get contract_str with
  | None => Raise ValueError
  | Some mutable_methods =>
      selector ← subscript txn_data "entry_point_selector";
      selector ← match selector with
                 | VStr s => int_base16 s
                 | _ => Ok selector
                 end;
      mret (select_method selector mutable_methods)
  end.

(** Lines 337 to 342: calldata that is present and not [None] is replaced by
    the list of its coerced items. *)
Definition convert_calldata (txn_data : gmap string value)
  : result (gmap string value) :=
  match txn_data !! "calldata" with
  | None | Some VNone => Ok txn_data
  | Some calldata =>
      items ← iterate calldata;
      encoded_calldata ← mapM encode_primitive_value items;
      mret (<["calldata" := VList encoded_calldata]> txn_data)
  end.

Definition create_transaction (kwargs : keywords) : result constructor_call :=
  let tx_type := default (VStr "") (kwargs.(entries) !! "tx_type") in
  let type_arg := default tx_type (kwargs.(entries) !! "type") in
  let kwargs' := delete "type" (delete "tx_type" kwargs.(entries)) in
  txn_type ← transaction_type_of type_arg;
  let txn_cls :=
    match txn_type with
    | INVOKE_FUNCTION => Some InvokeFunctionTransaction
    | DEPLOY => Some DeployTransaction
    | DECLARE => Some DeclareTransaction
    | OTHER_TRANSACTION_TYPE _ => None
    end in
  let txn_data := <["signature" := VNone]> kwargs' in
  txn_data ←
    match txn_data !! "chain_id", active_provider_chain_id with
    | None, Some chain_id =>
        chain_id ← chain_id; mret (<["chain_id" := chain_id]> txn_data)
    | _, _ => Ok txn_data
    end;
  txn_data ←
    match txn_data !! "contract_address" with
    | Some raw_address =>
        address ← to_checksum_address raw_address;
        mret (<["contract_address" := VStr address]> txn_data)
    | None => Ok txn_data
    end;
  match txn_type with
  | INVOKE_FUNCTION =>
      method ← match kwargs.(method_abi) with
               | Some abi => Ok (Some abi)
               | None => lookup_method txn_data
               end;
      txn_data ← convert_calldata txn_data;
      mret {| txn_cls := txn_cls; txn_method_abi := method;
              txn_data := txn_data |}
  | _ =>
      mret {| txn_cls := txn_cls; txn_method_abi := kwargs.(method_abi);
              txn_data := txn_data |}
  end.

End Transactions.

(** The steps of [create_transaction] on [txn_data], one by one. *)

(** Lines 308 and 309. *)
Definition with_chain_id (active_provider_chain_id : option (result value))
    (txn_data : gmap string value) : result (gmap string value) :=
  match txn_data !! "chain_id", active_provider_chain_id with
  | None, Some chain_id =>
      chain_id ← chain_id; mret (<["chain_id" := chain_id]> txn_data)
  | _, _ => Ok txn_data
  end.

(** Lines 312 and 313. *)
Definition with_checksum_address (to_checksum_address : value -> result string)
    (txn_data : gmap string value) : result (gmap string value) :=
  match txn_data !! "contract_address" with
  | Some raw_address =>
      address ← to_checksum_address raw_address;
      mret (<["contract_address" := VStr address]> txn_data)
  | None => Ok txn_data
  end.

(** Line 295, the argument of [TransactionType]: [type], else [tx_type], else
    the empty string. *)
Definition type_argument (kwargs : keywords) : value :=
  default (default (VStr "") (kwargs.(entries) !! "tx_type"))
    (kwargs.(entries) !! "type").

Definition class_of (txn_type : TransactionType) : option TransactionClass :=
  match txn_type with
  | INVOKE_FUNCTION => Some InvokeFunctionTransaction
  | DEPLOY => Some DeployTransaction
  | DECLARE => Some DeclareTransaction
  | OTHER_TRANSACTION_TYPE _ => None
  end.

(** Line 307, after the two [pop]s of line 295. *)
Definition initial_txn_data (kwargs : keywords) : gmap string value :=
  <["signature" := VNone]> (delete "type" (delete "tx_type" kwargs.(entries))).

(** ** Keyword arguments and surroundings of the transaction examples *)

Module TransactionExamples.

Definition type_of (v : value) : result TransactionType :=
  match v with
  | VInt 0 => Ok DECLARE
  | VInt 1 => Ok DEPLOY
  | VInt 3 => Ok INVOKE_FUNCTION
  | VInt 4 => Ok (OTHER_TRANSACTION_TYPE "L1_HANDLER")
  | _ => Raise ValueError
  end.

Definition method (n : string) : MethodABI :=
  {| method_name := n; inputs := []; outputs := [] |}.

(** Two of the three methods share a selector. *)
Definition selector (n : string) : Z := Z.of_nat (String.length n).
Definition contracts (address : string) : option (list MethodABI) :=
  Some [method "a"; method "bb"; method "cc"].

Definition arguments (type : Z) : gmap string value :=
  list_to_map
    [("type"%string, VInt type);
     ("calldata"%string, VTuple [VStr "0x10"; VInt 2]);
     ("signature"%string, VList [VInt 1]);
     ("contract_address"%string, VInt 5);
     ("entry_point_selector"%string, VStr "0x2");
     ("nonce"%string, VInt 4)].

Definition invoke : keywords :=
  {| method_abi := None; entries := arguments 3 |}.
Definition invoke_with_method : keywords :=
  {| method_abi := Some (method "given"); entries := arguments 3 |}.
Definition deploy : keywords :=
  {| method_abi := None; entries := arguments 1 |}.

Definition create : keywords -> result constructor_call :=
  create_transaction type_of None Examples.checksum contracts selector.

End TransactionExamples.

Module TransactionCalls.
Import TransactionExamples.

(** The calls the examples end with. *)
Definition invoke_call : constructor_call :=
  {| txn_cls := Some InvokeFunctionTransaction;
     txn_method_abi := Some (method "cc");
     txn_data :=
       list_to_map
         [("calldata"%string, VList [VInt 16; VInt 2]);
          ("signature"%string, VNone);
          ("contract_address"%string, VStr "0x0123");
          ("entry_point_selector"%string, VStr "0x2");
          ("nonce"%string, VInt 4)] |}.

Definition deploy_call : constructor_call :=
  {| txn_cls := Some DeployTransaction;
     txn_method_abi := None;
     txn_data :=
       list_to_map
         [("calldata"%string, VTuple [VStr "0x10"; VInt 2]);
          ("signature"%string, VNone);
          ("contract_address"%string, VStr "0x0123");
          ("entry_point_selector"%string, VStr "0x2");
          ("nonce"%string, VInt 4)] |}.

End TransactionCalls.

(** A list, a tuple or a dictionary. *)
Definition is_container (v : value) : bool :=
  match v with
  | VList _ | VTuple _ | VDict _ => true
  | _ => false
  end.

(** An input whose name ends in [_len]. *)
Definition named_len (t : ABIType) : bool :=
  match t.(name) with
  | Some input_name => endswith input_name "_len"
  | None => false
  end.

(** * Properties *)

(** Runs the iterator monad in a hypothesis. *)
Ltac run_iter H :=
  cbv [mbind iterM_bind mret iterM_ret next iter_raise] in H.

(** ** The result monads compute *)

Lemma mapM_nil {A B : Type} (f : A -> result B) : mapM f [] = Ok [].
Proof. reflexivity. Qed.

Lemma mapM_cons {A B : Type} (f : A -> result B) (x : A) (l : list A) :
  mapM f (x :: l) = (y ← f x; k ← mapM f l; mret (y :: k)).
Proof. reflexivity. Qed.

Lemma mapM_Ok_id {A : Type} (f : A -> result A) (l : list A) :
  Forall (fun x => f x = Ok x) l -> mapM f l = Ok l.
Proof.
  induction 1 as [|x l Hx _ IH]; [reflexivity|].
  rewrite mapM_cons, Hx, IH. reflexivity.
Qed.

Lemma mapM_ints : forall ns : list Z,
  mapM encode_primitive_value (VInt <$> ns) = Ok (VInt <$> ns).
Proof.
  intros ns. apply mapM_Ok_id. induction ns; constructor; auto.
Qed.

(** ** PrimitiveCoercer *)

Module PyIntFacts.
Import PyInt.

Lemma hex_digit_nonneg c d : hex_digit c = Some d -> 0 <= d.
Proof.
  unfold hex_digit. intros H.
  repeat match type of H with
         | (if ?b then _ else _) = _ => destruct b eqn:?
         end; inversion H; subst; lia.
Qed.

Lemma scan_digits_nonneg s : forall acc p n rest,
  0 <= acc -> scan_digits s acc p = Some (n, rest) -> 0 <= n.
Proof.
  induction s as [|c s IH]; intros acc p n rest Hacc H; simpl in H.
  - destruct p; inversion H; subst; assumption.
  - destruct (hex_digit c) as [d|] eqn:Hd.
    + apply hex_digit_nonneg in Hd. eapply IH; [|exact H]. lia.
    + destruct (Ascii.eqb c "_").
      * destruct p; [|discriminate]. destruct s as [|c' s']; [discriminate|].
        destruct (is_Some_dec (hex_digit c')); [|discriminate].
        eapply IH; [|exact H]. assumption.
      * destruct p; inversion H; subst; assumption.
Qed.

Lemma starts_with_zero s :
  is_0x_prefixed s = true -> exists s', s = String "0" s'.
Proof.
  unfold is_0x_prefixed. destruct s as [|c0 s]; [discriminate|].
  cbn [startswith]. destruct (Ascii.eqb_spec "0" c0) as [<-|].
  - eauto.
  - discriminate.
Qed.

(** A text that starts with [0x] has neither leading space nor a sign. *)
Lemma int16_0x_prefixed s :
  is_0x_prefixed s = true ->
  int16 s =
    match scan_digits (strip_prefix s) 0 false with
    | Some (n, rest) => if all_space rest then Some n else None
    | None => None
    end.
Proof.
  intros H. destruct (starts_with_zero s H) as [s' ->].
  unfold int16. cbn [lstrip]. change (is_space "0") with false.
  cbv iota. change (strip_sign (String "0" s')) with (1, String "0" s').
  cbv iota beta.
  destruct (scan_digits _ 0 false) as [[n rest]|]; [|reflexivity].
  destruct (all_space rest); [|reflexivity]. f_equal. lia.
Qed.

Lemma int16_0x_nonneg s n :
  is_0x_prefixed s = true -> int16 s = Some n -> 0 <= n.
Proof.
  intros Hp H. rewrite (int16_0x_prefixed s Hp) in H.
  destruct (scan_digits _ 0 false) as [[m rest]|] eqn:Hs; [|discriminate].
  destruct (all_space rest); inversion H; subst.
  eapply scan_digits_nonneg; [|exact Hs]. lia.
Qed.

Lemma hex_digit_hex_char k :
  (k < 16)%nat -> hex_digit (hex_char k) = Some (Z.of_nat k).
Proof.
  intros Hk. do 16 (destruct k as [|k]; [reflexivity|]). lia.
Qed.

Lemma hex_char_not_underscore k :
  (k < 16)%nat -> Ascii.eqb (hex_char k) "_" = false.
Proof.
  intros Hk. do 16 (destruct k as [|k]; [reflexivity|]). lia.
Qed.

Lemma nibbles (x : Byte.byte) :
  (Byte.to_nat x / 16 < 16)%nat /\ (Byte.to_nat x mod 16 < 16)%nat.
Proof.
  pose proof (Byte.to_nat_bounded x) as Hx. split.
  - apply Nat.Div0.div_lt_upper_bound. lia.
  - apply Nat.mod_upper_bound. lia.
Qed.

Lemma scan_bytes_hex b : forall acc p,
  b <> [] \/ p = true ->
  scan_digits (bytes_hex b) acc p =
    Some (fold_left (fun a x => 256 * a + Z.of_nat (Byte.to_nat x)) b acc,
          EmptyString).
Proof.
  induction b as [|x b IH]; intros acc p Hne.
  - destruct Hne as [Hne | ->]; [congruence|reflexivity].
  - destruct (nibbles x) as [Hhi Hlo].
    cbn [bytes_hex scan_digits fold_left].
    rewrite (hex_digit_hex_char _ Hhi).
    rewrite (hex_digit_hex_char _ Hlo).
    rewrite IH by (right; reflexivity). do 3 f_equal.
    rewrite (Nat.div_mod_eq (Byte.to_nat x) 16) at 3. lia.
Qed.

Lemma strip_prefix_HexBytes_hex b :
  strip_prefix (HexBytes_hex b) = bytes_hex b.
Proof.
  destruct b as [|x b]; [reflexivity|].
  destruct (nibbles x) as [Hhi _].
  pose proof (hex_char_not_underscore _ Hhi) as Hu.
  unfold HexBytes_hex. cbn [bytes_hex].
  set (c := hex_char (Byte.to_nat x / 16)) in *.
  set (rest := String (hex_char (Byte.to_nat x mod 16)) (bytes_hex b)).
  destruct c as [[] [] [] [] [] [] [] []]; try reflexivity.
  discriminate Hu.
Qed.

Lemma int16_HexBytes_hex b :
  b <> [] -> int16 (HexBytes_hex b) = Some (int_from_bytes_big b).
Proof.
  intros Hb. rewrite int16_0x_prefixed by reflexivity.
  rewrite strip_prefix_HexBytes_hex.
  rewrite scan_bytes_hex by (left; assumption). reflexivity.
Qed.

Lemma scan_hex_value digits : forall acc p n,
  digits <> EmptyString \/ p = true ->
  hex_value digits acc = Some n ->
  scan_digits digits acc p = Some (n, EmptyString).
Proof.
  induction digits as [|c digits IH]; intros acc p n Hne H.
  - destruct Hne as [Hne | ->]; [congruence|]. inversion H. reflexivity.
  - cbn [hex_value] in H. cbn [scan_digits].
    destruct (hex_digit c) as [d|]; [|discriminate].
    apply IH; [right; reflexivity|assumption].
Qed.

Lemma strip_prefix_hex_digit c d digits :
  hex_digit c = Some d ->
  strip_prefix (String "0" (String "x" (String c digits))) = String c digits.
Proof.
  intros H. destruct c as [[] [] [] [] [] [] [] []]; try reflexivity.
  discriminate H.
Qed.

Lemma int16_hex_digits digits n :
  digits <> EmptyString ->
  hex_value digits 0 = Some n ->
  int16 (String "0" (String "x" digits)) = Some n.
Proof.
  intros Hne H. rewrite int16_0x_prefixed by reflexivity.
  destruct digits as [|c digits]; [congruence|].
  assert (exists d, hex_digit c = Some d) as [d Hd].
  { cbn [hex_value] in H. destruct (hex_digit c); [eauto|discriminate]. }
  rewrite (strip_prefix_hex_digit c d digits Hd).
  rewrite (scan_hex_value _ 0 false n); [reflexivity|left; congruence|exact H].
Qed.

End PyIntFacts.

(** C9, as the code has it: the coercer returns an integer unchanged, parses
    a hex-prefixed string that is a base-16 literal into a non-negative
    integer ([0x] followed by hexadecimal digits into their base-16 value),
    reads a non-empty byte blob as the big-endian number of its hex
    representation, and returns every other value unchanged.  (A hex-prefixed
    string that is no base-16 literal and the empty blob are left out: there
    [int] raises.) *)
Theorem encode_primitive_value_cases :
  (forall n, encode_primitive_value (VInt n) = Ok (VInt n)) /\
  (forall s n, is_0x_prefixed s = true -> PyInt.int16 s = Some n ->
     encode_primitive_value (VStr s) = Ok (VInt n) /\ 0 <= n) /\
  (forall digits n, digits <> EmptyString -> hex_value digits 0 = Some n ->
     encode_primitive_value (VStr (String "0" (String "x" digits)))
     = Ok (VInt n)) /\
  (forall b, b <> [] ->
     encode_primitive_value (VHexBytes b) = Ok (VInt (int_from_bytes_big b))
     /\ 0 <= int_from_bytes_big b) /\
  (forall v,
     match v with
     | VInt _ | VHexBytes _ => False
     | VStr s => is_0x_prefixed s = false
     | _ => True
     end -> encode_primitive_value v = Ok v).
Proof.
  split; [reflexivity|]. split; [|split; [|split]].
  - intros s n Hp Hn. split.
    + unfold encode_primitive_value, int_base16. rewrite Hp, Hn. reflexivity.
    + eapply PyIntFacts.int16_0x_nonneg; eassumption.
  - intros digits n Hne Hn. unfold encode_primitive_value, int_base16.
    change (is_0x_prefixed (String "0" (String "x" digits))) with true.
    cbv iota. rewrite (PyIntFacts.int16_hex_digits digits n Hne Hn).
    reflexivity.
  - intros b Hb. pose proof (PyIntFacts.int16_HexBytes_hex b Hb) as H. split.
    + unfold encode_primitive_value, int_base16. rewrite H. reflexivity.
    + eapply (PyIntFacts.int16_0x_nonneg (HexBytes_hex b)); [reflexivity|].
      exact H.
  - intros v Hv. destruct v; try reflexivity; try contradiction.
    simpl. rewrite Hv. reflexivity.
Qed.

Lemma encode_primitive_value_cases_witness :
  encode_primitive_value (VStr "0x2a") = Ok (VInt 42) /\
  encode_primitive_value (VHexBytes [Byte.x01; Byte.x00])
    = Ok (VInt (int_from_bytes_big [Byte.x01; Byte.x00])) /\
  encode_primitive_value (VStr "felt") = Ok (VStr "felt").
Proof.
  destruct encode_primitive_value_cases as (_ & Hs & _ & Hb & Ho).
  split; [|split].
  - apply (Hs "0x2a"%string 42); reflexivity.
  - apply (Hb [Byte.x01; Byte.x00]). discriminate.
  - apply (Ho (VStr "felt")). reflexivity.
Defined.

(** C9 as stated fails: a hex-prefixed string that is no base-16 literal, and
    the empty byte blob, make the coercer raise [ValueError]. *)
Lemma encode_primitive_value_raises :
  encode_primitive_value (VStr "0xzz") = Raise ValueError /\
  encode_primitive_value (VStr "0x") = Raise ValueError /\
  encode_primitive_value (VHexBytes []) = Raise ValueError.
Proof. repeat split. Qed.

(** ** Iterators *)

Lemma iter_bind_eq {A B : Type} (m : iterM A) (f : A -> iterM B)
    (it : list value) :
  (m ≫= f) it =
    match m it with
    | Ok (a, it') => f a it'
    | Raise e => Raise e
    end.
Proof. reflexivity. Qed.

Lemma next_n_spec (n : nat) : forall it : list value,
  next_n n it =
    if (n <=? length it)%nat then Ok (take n it, drop n it)
    else Raise StopIteration.
Proof.
  induction n as [|n IH]; intros it.
  - reflexivity.
  - destruct it as [|x it]; [reflexivity|].
    cbn [next_n]. rewrite iter_bind_eq. cbn [next].
    rewrite iter_bind_eq, IH. cbn [length take drop].
    change (S n <=? S (length it))%nat with (n <=? length it)%nat.
    destruct (n <=? length it)%nat; reflexivity.
Qed.

(** ** ReturnDataDecoder *)

(** C3: raw data of exactly one element comes back as that element, coerced
    and not wrapped in a sequence, whatever the signature says: the outputs
    are not looked at. *)
Theorem decode_returndata_single_element :
  (forall abi v, decode_returndata abi [v] = encode_primitive_value v) /\
  (forall abi n, decode_returndata abi [VInt n] = Ok (VInt n)) /\
  (forall abi, decode_returndata abi [VInt 42] <> Ok (VList [VInt 42])).
Proof.
  assert (forall abi v, decode_returndata abi [v] = encode_primitive_value v)
    as H.
  { intros abi v. unfold decode_returndata.
    rewrite mapM_cons, mapM_nil.
    destruct (encode_primitive_value v); reflexivity. }
  split; [exact H|]. split.
  - intros abi n. rewrite H. reflexivity.
  - intros abi. rewrite H. discriminate.
Qed.

Lemma mapM_result_length {A B : Type} (f : A -> result B) (l : list A) :
  forall k, mapM f l = Ok k -> length k = length l.
Proof.
  induction l as [|x l IH]; intros k H.
  - inversion H. reflexivity.
  - rewrite mapM_cons in H. destruct (f x) as [y|]; [|discriminate].
    cbn in H. destruct (mapM f l) as [k'|]; [|discriminate].
    inversion H. cbn. f_equal. apply IH. reflexivity.
Qed.

(** What [decode_returndata] does with more than one raw element, once the
    elements are coerced and the walk is over. *)
Lemma decode_returndata_after_walk abi raw_data raw decoded rest :
  (1 < length raw_data)%nat ->
  mapM encode_primitive_value raw_data = Ok raw ->
  decode_outputs (zip_longest abi.(outputs) (tail abi.(outputs))) [] raw
  = Ok (decoded, rest) ->
  decode_returndata abi raw_data =
    if keep_only_expected abi.(outputs) then
      match decoded !! 0%nat with
      | Some x => Ok x
      | None => Raise IndexError
      end
    else Ok (VList decoded).
Proof.
  intros Hlen Hraw Hwalk. unfold decode_returndata.
  destruct raw_data as [|v raw_data]; [cbn in Hlen; lia|].
  rewrite Hraw. cbn [mbind result_bind].
  apply mapM_result_length in Hraw.
  destruct (Nat.eqb_spec (length raw) 1) as [E|_].
  - rewrite E in Hraw. cbn in Hlen, Hraw. lia.
  - rewrite Hwalk. reflexivity.
Qed.

Lemma decode_output_marker cur nxt decoded it :
  cur.(type) = "felt*"%string ->
  decode_output (Some cur) nxt decoded it = Ok (decoded, it).
Proof. intros H. unfold decode_output. rewrite H. reflexivity. Qed.

Lemma decode_output_one_entry cur nxt decoded it decoded' it' :
  cur.(type) <> "felt*"%string ->
  decode_output (Some cur) nxt decoded it = Ok (decoded', it') ->
  exists entry, decoded' = decoded ++ [entry].
Proof.
  intros Hne H. unfold decode_output in H.
  destruct (String.eqb cur.(type) "Uint256").
  { run_iter H. destruct it as [|low [|high it]]; inversion H. eauto. }
  destruct (String.eqb cur.(type) "felt" && next_is_array nxt).
  { run_iter H. destruct it as [|array_len it]; [discriminate|].
    destruct (range_length array_len) as [n|]; [|discriminate].
    destruct (next_n n it) as [[items it'']|]; inversion H. eauto. }
  destruct (String.eqb_spec cur.(type) "felt*"); [contradiction|].
  run_iter H. destruct it as [|x it]; inversion H. eauto.
Qed.

(** C4, as the code has it: with more than one raw element, all of them
    coerced and the walk over the outputs completed, a signature of exactly
    one output, or of exactly two outputs the second of which has the type
    [felt*], gives the single decoded entry itself, provided the first output
    is not of the type [felt*]; every other signature gives the whole decoded
    sequence. *)
Theorem final_unwrap :
  forall (abi : MethodABI) (raw_data raw decoded rest : list value),
    (1 < length raw_data)%nat ->
    mapM encode_primitive_value raw_data = Ok raw ->
    decode_outputs (zip_longest abi.(outputs) (tail abi.(outputs))) [] raw
    = Ok (decoded, rest) ->
    (forall o, abi.(outputs) = [o] -> o.(type) <> "felt*"%string ->
       exists entry,
         decoded = [entry] /\ decode_returndata abi raw_data = Ok entry) /\
    (forall o1 o2, abi.(outputs) = [o1; o2] ->
       o2.(type) = "felt*"%string -> o1.(type) <> "felt*"%string ->
       exists entry,
         decoded = [entry] /\ decode_returndata abi raw_data = Ok entry) /\
    (length abi.(outputs) <> 1%nat ->
     (forall o1 o2, abi.(outputs) = [o1; o2] -> o2.(type) <> "felt*"%string) ->
     decode_returndata abi raw_data = Ok (VList decoded)).
Proof.
  intros abi raw_data raw decoded rest Hlen Hraw Hwalk.
  pose proof (decode_returndata_after_walk _ _ _ _ _ Hlen Hraw Hwalk) as Hret.
  split; [|split].
  - intros o Ho Hne. rewrite Ho in Hwalk, Hret.
    cbn [zip_longest tail decode_outputs] in Hwalk.
    rewrite iter_bind_eq in Hwalk.
    destruct (decode_output (Some o) None [] raw) as [[d it]|] eqn:Hstep;
      [|discriminate].
    apply decode_output_one_entry in Hstep; [|assumption].
    destruct Hstep as [entry ->]. inversion Hwalk; subst.
    exists entry. split; [reflexivity|]. rewrite Hret. reflexivity.
  - intros o1 o2 Ho H2 H1. rewrite Ho in Hwalk, Hret.
    cbn [zip_longest tail decode_outputs] in Hwalk.
    rewrite iter_bind_eq in Hwalk.
    destruct (decode_output (Some o1) (Some o2) [] raw) as [[d it]|] eqn:Hstep;
      [|discriminate].
    apply decode_output_one_entry in Hstep; [|assumption].
    destruct Hstep as [entry ->].
    rewrite iter_bind_eq, (decode_output_marker o2) in Hwalk by assumption.
    inversion Hwalk; subst.
    exists entry. split; [reflexivity|]. rewrite Hret.
    unfold keep_only_expected. cbn. rewrite H2. reflexivity.
  - intros H1 H2. rewrite Hret.
    replace (keep_only_expected abi.(outputs)) with false; [reflexivity|].
    unfold keep_only_expected.
    destruct abi.(outputs) as [|o1 [|o2 [|o3 outs]]] eqn:Ho;
      try reflexivity.
    + cbn in H1. congruence.
    + cbn. symmetry. apply String.eqb_neq. eapply H2. reflexivity.
Qed.

Lemma final_unwrap_witness :
  (exists entry,
     [VList [VInt 7; VInt 8]] = [entry] /\
     decode_returndata (Examples.returns Examples.len_arr)
       (Examples.ints [2; 7; 8]) = Ok entry).
Proof.
  refine (proj1 (proj2 (final_unwrap (Examples.returns Examples.len_arr)
            (Examples.ints [2; 7; 8]) (Examples.ints [2; 7; 8])
            [VList [VInt 7; VInt 8]] [] _ _ _)) _ _ _ _ _).
  - cbn. lia.
  - reflexivity.
  - reflexivity.
  - reflexivity.
  - reflexivity.
  - discriminate.
Defined.

(** C4 as stated fails: a signature that declares exactly one output, of the
    type [felt*], decodes no entry, and the unwrap of the first entry raises
    [IndexError]; so does a pair of two [felt*] outputs. *)
Lemma final_unwrap_of_lone_marker_raises :
  decode_returndata (Examples.returns Examples.lone_marker)
    (Examples.ints [1; 2]) = Raise IndexError /\
  decode_returndata
    (Examples.returns (Examples.lone_marker ++ Examples.lone_marker))
    (Examples.ints [1; 2]) = Raise IndexError.
Proof. split; reflexivity. Qed.

(** ** Raw data shorter than the signature requires *)

Lemma decode_items_loop_short abi_types : forall decoded data,
  (length data < required_items abi_types)%nat ->
  decode_items_loop abi_types decoded data = Raise StopIteration.
Proof.
  induction abi_types as [|t ts IH]; intros decoded data Hlen;
    cbn [required_items] in Hlen; [lia|].
  cbn [decode_items_loop]. rewrite iter_bind_eq. unfold decode_item.
  destruct (String.eqb t.(type) "Uint256").
  - destruct data as [|low [|high data]]; try reflexivity.
    change (decode_items_loop ts (decoded ++ [VTuple [low; high]]) data
            = Raise StopIteration).
    apply IH. cbn in Hlen. lia.
  - destruct data as [|x data]; [reflexivity|].
    change (decode_items_loop ts (decoded ++ [x]) data = Raise StopIteration).
    apply IH. cbn in Hlen. lia.
Qed.

Lemma decode_items_loop_enough abi_types : forall decoded data,
  (required_items abi_types <= length data)%nat ->
  exists decoded',
    decode_items_loop abi_types decoded data
    = Ok (decoded', drop (required_items abi_types) data).
Proof.
  induction abi_types as [|t ts IH]; intros decoded data Hlen;
    cbn [required_items] in *.
  - exists decoded. reflexivity.
  - cbn [decode_items_loop]. rewrite iter_bind_eq. unfold decode_item.
    destruct (String.eqb t.(type) "Uint256").
    + destruct data as [|low [|high data]]; cbn in Hlen; try lia.
      apply (IH (decoded ++ [VTuple [low; high]]) data). lia.
    + destruct data as [|x data]; cbn in Hlen; try lia.
      apply (IH (decoded ++ [x]) data). lia.
Qed.

Lemma decode_outputs_short pairs : forall decoded raw,
  (length raw < required_outputs pairs raw)%nat ->
  decode_outputs pairs decoded (VInt <$> raw) = Raise StopIteration.
Proof.
  induction pairs as [|[[cur|] nxt] pairs IH]; intros decoded raw Hlen;
    cbn [required_outputs] in Hlen; try lia.
  cbn [decode_outputs]. rewrite iter_bind_eq. unfold decode_output.
  destruct (String.eqb cur.(type) "Uint256").
  { destruct raw as [|low [|high raw]]; try reflexivity.
    change (decode_outputs pairs (decoded ++ [VTuple [VInt low; VInt high]])
              (VInt <$> raw) = Raise StopIteration).
    apply IH. cbn [length skipn] in Hlen. rewrite drop_0 in Hlen. lia. }
  destruct (String.eqb cur.(type) "felt" && next_is_array nxt).
  { destruct raw as [|n raw]; [reflexivity|].
    cbn [fmap list_fmap]. rewrite iter_bind_eq. cbn [next range_length].
    rewrite iter_bind_eq, next_n_spec, length_fmap.
    destruct (Nat.leb_spec (Z.to_nat n) (length raw)) as [Hn|Hn];
      [|reflexivity].
    cbn [mret iterM_ret]. rewrite <- fmap_drop. apply IH.
    rewrite length_drop. cbn [length] in Hlen. lia. }
  destruct (String.eqb cur.(type) "felt*").
  { apply IH. assumption. }
  destruct raw as [|x raw]; [reflexivity|].
  change (decode_outputs pairs (decoded ++ [VInt x]) (VInt <$> raw)
          = Raise StopIteration).
  apply IH. cbn [length skipn] in Hlen. rewrite drop_0 in Hlen. lia.
Qed.

(** C6, as the code has it: [decode_items] fails exactly when the data has
    fewer elements than the signature requires, and it fails with the
    iterator's [StopIteration], which the generator [decode_logs] lets out as
    [RuntimeError] after the logs it has already yielded; [decode_returndata]
    fails with [StopIteration] when at least two raw elements, coerced to
    integers, are fewer than the walk requires.  No value is returned by the
    failing call. *)
Theorem short_data_stops_iteration :
  (forall abi_types data,
     (length data < required_items abi_types)%nat <->
     decode_items abi_types data = Raise StopIteration) /\
  (forall abi index log logs,
     (length log.(data) < required_items abi.(event_inputs))%nat ->
     yield_logs abi index (log :: logs) = ([], Some RuntimeError)) /\
  (forall abi raw_data ns,
     mapM encode_primitive_value raw_data = Ok (VInt <$> ns) ->
     (2 <= length ns)%nat ->
     (length ns
      < required_outputs (zip_longest abi.(outputs) (tail abi.(outputs))) ns)%nat ->
     decode_returndata abi raw_data = Raise StopIteration).
Proof.
  split; [|split].
  - intros abi_types data. unfold decode_items. split.
    + intros H. rewrite decode_items_loop_short by assumption. reflexivity.
    + intros H.
      destruct (Nat.lt_ge_cases (length data) (required_items abi_types))
        as [Hlt|Hge]; [assumption|].
      destruct (decode_items_loop_enough abi_types [] data Hge) as [d Hd].
      rewrite Hd in H. discriminate.
  - intros abi index log logs H. cbn [yield_logs]. unfold decode_items.
    rewrite decode_items_loop_short by assumption. reflexivity.
  - intros abi raw_data ns Hraw Hlen Hshort. unfold decode_returndata.
    destruct raw_data as [|v raw_data].
    { inversion Hraw as [E]. destruct ns; [cbn in Hlen; lia|discriminate]. }
    rewrite Hraw. cbn [mbind result_bind]. rewrite length_fmap.
    destruct (Nat.eqb_spec (length ns) 1) as [E|_]; [lia|].
    rewrite decode_outputs_short by assumption. reflexivity.
Qed.

Lemma short_data_stops_iteration_witness :
  decode_items Examples.scalar_wide (Examples.ints [5; 42])
  = Raise StopIteration /\
  decode_returndata (Examples.returns (Examples.len_arr ++ Examples.wide))
    (Examples.ints [2; 7; 8; 9]) = Raise StopIteration.
Proof.
  destruct short_data_stops_iteration as (Hitems & _ & Hret). split.
  - apply Hitems. cbn. lia.
  - apply (Hret _ _ [2; 7; 8; 9]).
    + reflexivity.
    + cbn. lia.
    + cbn. lia.
Defined.

(** C6 as stated fails: the failure is the iterator's own [StopIteration]
    (a [RuntimeError] once it leaves the generator), not an exception named
    [MalformedReturnDataError] or [MalformedEventDataError]; and raw data of
    one element decodes against a signature that requires two. *)
Lemma short_data_error_is_not_named :
  decode_returndata (Examples.returns Examples.scalar_wide)
    (Examples.ints [5; 42]) = Raise StopIteration /\
  decode_items Examples.wide (Examples.ints [10]) = Raise StopIteration /\
  (forall selector,
     decode_logs selector (Examples.Transfer Examples.wide)
       [Examples.raw_log [selector "Transfer"%string] [10]]
     = ([], Some RuntimeError)) /\
  StopIteration <> NamedError "MalformedReturnDataError" /\
  StopIteration <> NamedError "MalformedEventDataError" /\
  RuntimeError <> NamedError "MalformedEventDataError" /\
  decode_returndata (Examples.returns Examples.wide) (Examples.ints [10])
  = Ok (VInt 10).
Proof.
  repeat (split; try reflexivity; try discriminate).
  intros selector. unfold decode_logs, Examples.raw_log.
  cbn [List.filter is_matching_log keys existsb Examples.Transfer event_name].
  rewrite Z.eqb_refl. reflexivity.
Qed.

(** ** ProxyResolver *)

Section ProxyFacts.

Variable instance_at : string -> result (option ContractInstance).
Variable client : option (Z -> Z -> result value).
Variable OZ_PROXY_STORAGE_KEY : Z.
Variable parse_address : string -> result Z.
Variable to_checksum_address : value -> result string.

Local Abbreviation probes :=
  (probe_proxy instance_at client OZ_PROXY_STORAGE_KEY parse_address).
Local Abbreviation resolve :=
  (get_proxy_info instance_at client OZ_PROXY_STORAGE_KEY parse_address
     to_checksum_address).
Local Abbreviation descriptor := (proxy_info to_checksum_address).

Lemma get_proxy_info_eq address contract :
  instance_at address = Ok (Some contract) ->
  resolve address
  = (InstanceAt address :: (probes address contract).1,
     found ← (probes address contract).2; descriptor found.1 found.2).
Proof.
  intros H. unfold get_proxy_info. rewrite H.
  cbv [probing mbind probeM_bind silent result_bind]. cbn [app].
  destruct (probes address contract) as [tr [found|e]];
    cbn [fst snd]; [|reflexivity].
  rewrite app_nil_r. reflexivity.
Qed.

Lemma get_proxy_info_not_instance address :
  instance_at address = Ok None ->
  resolve address = ([InstanceAt address], Ok None).
Proof. intros H. unfold get_proxy_info. rewrite H. reflexivity. Qed.

Lemma call_getter_eq address contract p getter :
  instance_at address = Ok (Some contract) ->
  call_getter instance_at address p getter
  = ([InstanceAt address; p], getter contract).
Proof. intros H. unfold call_getter. rewrite H. reflexivity. Qed.

Lemma probe_proxy_legacy address contract :
  instance_at address = Ok (Some contract) ->
  has_method "implementation" contract.(view_methods) = true ->
  probes address contract
  = ([InstanceAt address; CallImplementation],
     (fun tgt => (tgt, Some LEGACY)) <$> contract.(implementation)).
Proof.
  intros H Hm. unfold probe_proxy. rewrite Hm.
  rewrite (call_getter_eq _ _ _ _ H). cbn [mbind probeM_bind].
  destruct contract.(implementation); reflexivity.
Qed.

Lemma probe_proxy_argent_x address contract :
  instance_at address = Ok (Some contract) ->
  has_method "implementation" contract.(view_methods) = false ->
  has_method "get_implementation" contract.(view_methods) = true ->
  probes address contract
  = ([InstanceAt address; CallGetImplementation],
     (fun tgt => (tgt, Some ARGENT_X)) <$> contract.(get_implementation)).
Proof.
  intros H Hm Hg. unfold probe_proxy. rewrite Hm, Hg.
  rewrite (call_getter_eq _ _ _ _ H). cbn [mbind probeM_bind].
  destruct contract.(get_implementation); reflexivity.
Qed.

Lemma probe_proxy_storage address contract get_storage_at_sync address_int :
  has_method "implementation" contract.(view_methods) = false ->
  has_method "get_implementation" contract.(view_methods) = false ->
  client = Some get_storage_at_sync ->
  parse_address address = Ok address_int ->
  probes address contract
  = ([GetStorageAt address_int OZ_PROXY_STORAGE_KEY],
     tgt ← get_storage_at_sync address_int OZ_PROXY_STORAGE_KEY;
     if is_zero_sentinel tgt then Ok (VNone, None)
     else Ok (tgt, Some OPEN_ZEPPELIN)).
Proof.
  intros Hm Hg Hc Ha. unfold probe_proxy.
  rewrite Hm, Hg, Hc. unfold silent, encode_address. rewrite Ha.
  cbv [mbind probeM_bind probing result_bind]. cbn [app].
  destruct (get_storage_at_sync address_int OZ_PROXY_STORAGE_KEY) as [tgt|];
    [|reflexivity].
  destruct (is_zero_sentinel tgt); reflexivity.
Qed.

Lemma probe_proxy_nothing address contract :
  has_method "implementation" contract.(view_methods) = false ->
  has_method "get_implementation" contract.(view_methods) = false ->
  client = None ->
  probes address contract = ([], Ok (VNone, None)).
Proof.
  intros Hm Hg Hc. unfold probe_proxy. rewrite Hm, Hg, Hc. reflexivity.
Qed.

(** C7: for a contract instance that declares both [implementation] and
    [get_implementation], the resolver calls [implementation] and nothing
    else of the three probes, and its result is decided by what
    [implementation] returned alone: a descriptor tagged [LEGACY] holding
    the checksum of that target when the target is truthy, nothing when it
    is not, and the exception of the call or of the checksum otherwise; it
    is never tagged [ARGENT_X].  The order of the probes is fixed and the
    first match wins: [implementation] if declared (tag [LEGACY]), else
    [get_implementation] if declared (tag [ARGENT_X]), else the storage slot
    if there is a client (tag [OPEN_ZEPPELIN], unless the slot holds the
    zero sentinel), else nothing. *)
Theorem legacy_probe_wins :
  forall (address : string) (contract : ContractInstance),
    instance_at address = Ok (Some contract) ->
    (has_method "implementation" contract.(view_methods) = true ->
     has_method "get_implementation" contract.(view_methods) = true ->
     resolve address
     = ([InstanceAt address; InstanceAt address; CallImplementation],
        tgt ← contract.(implementation);
        if truthy tgt then
          checksum ← to_checksum_address tgt;
          Ok (Some {| target := checksum; proxy_type := LEGACY |})
        else Ok None) /\
     ~ In CallGetImplementation (resolve address).1 /\
     (forall tgt checksum,
        contract.(implementation) = Ok tgt ->
        truthy tgt = true ->
        to_checksum_address tgt = Ok checksum ->
        (resolve address).2
        = Ok (Some {| target := checksum; proxy_type := LEGACY |})) /\
     (forall proxy, (resolve address).2 = Ok (Some proxy) ->
        proxy.(proxy_type) = LEGACY /\
        exists tgt, contract.(implementation) = Ok tgt /\
                    to_checksum_address tgt = Ok proxy.(target))) /\
    (has_method "implementation" contract.(view_methods) = true ->
     resolve address
     = ([InstanceAt address; InstanceAt address; CallImplementation],
        tgt ← contract.(implementation);
        if truthy tgt then
          checksum ← to_checksum_address tgt;
          Ok (Some {| target := checksum; proxy_type := LEGACY |})
        else Ok None)) /\
    (has_method "implementation" contract.(view_methods) = false ->
     has_method "get_implementation" contract.(view_methods) = true ->
     resolve address
     = ([InstanceAt address; InstanceAt address; CallGetImplementation],
        tgt ← contract.(get_implementation);
        if truthy tgt then
          checksum ← to_checksum_address tgt;
          Ok (Some {| target := checksum; proxy_type := ARGENT_X |})
        else Ok None)) /\
    (has_method "implementation" contract.(view_methods) = false ->
     has_method "get_implementation" contract.(view_methods) = false ->
     forall get_storage_at_sync address_int,
       client = Some get_storage_at_sync ->
       parse_address address = Ok address_int ->
       resolve address
       = ([InstanceAt address; GetStorageAt address_int OZ_PROXY_STORAGE_KEY],
          tgt ← get_storage_at_sync address_int OZ_PROXY_STORAGE_KEY;
          if is_zero_sentinel tgt then Ok None
          else if truthy tgt then
            checksum ← to_checksum_address tgt;
            Ok (Some {| target := checksum; proxy_type := OPEN_ZEPPELIN |})
          else Ok None)) /\
    (has_method "implementation" contract.(view_methods) = false ->
     has_method "get_implementation" contract.(view_methods) = false ->
     client = None ->
     resolve address = ([InstanceAt address], Ok None)).
Proof.
  intros address contract H.
  rewrite (get_proxy_info_eq address contract H).
  assert (Hlegacy :
    has_method "implementation" contract.(view_methods) = true ->
    (InstanceAt address :: (probes address contract).1,
     found ← (probes address contract).2; descriptor found.1 found.2)
    = ([InstanceAt address; InstanceAt address; CallImplementation],
       tgt ← contract.(implementation);
       if truthy tgt then
         checksum ← to_checksum_address tgt;
         Ok (Some {| target := checksum; proxy_type := LEGACY |})
       else Ok None)).
  { intros Hm. rewrite (probe_proxy_legacy _ _ H Hm). cbn [fst snd].
    f_equal. destruct contract.(implementation) as [tgt|]; [|reflexivity].
    cbn. unfold decode_address. destruct (truthy tgt); reflexivity. }
  split; [|split; [|split; [|split]]].
  - intros Hm _. split; [exact (Hlegacy Hm)|].
    rewrite (Hlegacy Hm). cbn [fst snd]. split; [|split].
    + cbn. intros [E|[E|[E|[]]]]; discriminate E.
    + intros tgt checksum -> Ht Hc. cbn. rewrite Ht, Hc. reflexivity.
    + intros proxy.
      destruct contract.(implementation) as [tgt|]; [|discriminate].
      cbn. destruct (truthy tgt); [|discriminate].
      destruct (to_checksum_address tgt) as [checksum|] eqn:Ec;
        [|discriminate].
      cbn. intros E. inversion E; subst. cbn. eauto.
  - exact Hlegacy.
  - intros Hm Hg. rewrite (probe_proxy_argent_x _ _ H Hm Hg). cbn [fst snd].
    f_equal. destruct contract.(get_implementation) as [tgt|]; [|reflexivity].
    cbn. unfold decode_address. destruct (truthy tgt); reflexivity.
  - intros Hm Hg g a Hc Ha.
    rewrite (probe_proxy_storage _ _ g a Hm Hg Hc Ha). cbn [fst snd].
    f_equal. destruct (g a OZ_PROXY_STORAGE_KEY) as [tgt|]; [|reflexivity].
    cbn. destruct (is_zero_sentinel tgt); [reflexivity|].
    cbn. unfold decode_address. destruct (truthy tgt); reflexivity.
  - intros Hm Hg Hc. rewrite (probe_proxy_nothing _ _ Hm Hg Hc). reflexivity.
Qed.

(** C8: a descriptor comes back only when the probes left a truthy target
    together with a proxy type, and it holds the checksum of that target and
    that type; when they left no proxy type or a target that is not truthy,
    and when the address is not a contract instance, nothing comes back; in
    particular nothing comes back when the storage slot holds the zero
    sentinel. *)
Theorem descriptor_needs_target_and_kind :
  forall (address : string),
    (forall proxy, (resolve address).2 = Ok (Some proxy) ->
       exists contract tgt,
         instance_at address = Ok (Some contract) /\
         (probes address contract).2 = Ok (tgt, Some proxy.(proxy_type)) /\
         truthy tgt = true /\
         to_checksum_address tgt = Ok proxy.(target)) /\
    (forall contract tgt kind,
       instance_at address = Ok (Some contract) ->
       (probes address contract).2 = Ok (tgt, kind) ->
       truthy tgt = false \/ kind = None ->
       (resolve address).2 = Ok None) /\
    (instance_at address = Ok None -> (resolve address).2 = Ok None) /\
    (forall contract get_storage_at_sync address_int,
       instance_at address = Ok (Some contract) ->
       has_method "implementation" contract.(view_methods) = false ->
       has_method "get_implementation" contract.(view_methods) = false ->
       client = Some get_storage_at_sync ->
       parse_address address = Ok address_int ->
       get_storage_at_sync address_int OZ_PROXY_STORAGE_KEY
       = Ok (VStr "0x0") ->
       resolve address
       = ([InstanceAt address; GetStorageAt address_int OZ_PROXY_STORAGE_KEY],
          Ok None)).
Proof.
  intros address. split; [|split; [|split]].
  - intros proxy Hr.
    destruct (instance_at address) as [[contract|]|e] eqn:H.
    + rewrite (get_proxy_info_eq address contract H) in Hr. cbn [snd] in Hr.
      destruct (probes address contract).2 as [[tgt kind]|] eqn:Hp;
        [|discriminate].
      cbn in Hr. unfold proxy_info, decode_address in Hr.
      destruct kind as [kind|]; [|discriminate].
      destruct (truthy tgt) eqn:Ht; [|discriminate].
      destruct (to_checksum_address tgt) as [checksum|] eqn:Ec;
        [|discriminate].
      cbn in Hr. inversion Hr; subst. cbn. eauto 10.
    + rewrite (get_proxy_info_not_instance address H) in Hr. discriminate.
    + unfold get_proxy_info in Hr. rewrite H in Hr. discriminate.
  - intros contract tgt kind H Hp Hno.
    rewrite (get_proxy_info_eq address contract H). cbn [snd]. rewrite Hp.
    cbn. unfold proxy_info.
    destruct Hno as [Ht | ->]; [|reflexivity].
    rewrite Ht. destruct kind; reflexivity.
  - intros H. rewrite (get_proxy_info_not_instance address H). reflexivity.
  - intros contract g a H Hm Hg Hc Ha Hz.
    rewrite (get_proxy_info_eq address contract H).
    rewrite (probe_proxy_storage _ _ g a Hm Hg Hc Ha), Hz. reflexivity.
Qed.

End ProxyFacts.

Lemma legacy_probe_wins_witness :
  get_proxy_info (fun _ => Ok (Some Examples.both_getters)) None 0
    (fun _ => Ok 5) Examples.checksum "0x5"
  = ([InstanceAt "0x5"; InstanceAt "0x5"; CallImplementation],
     Ok (Some {| target := "0x0123"; proxy_type := LEGACY |})).
Proof.
  refine (proj1 (proj1 (legacy_probe_wins
            (fun _ => Ok (Some Examples.both_getters)) None 0
            (fun _ => Ok 5) Examples.checksum "0x5" Examples.both_getters _)
            _ _)); reflexivity.
Defined.

Lemma descriptor_needs_target_and_kind_witness :
  get_proxy_info (fun _ => Ok (Some Examples.no_getter)) Examples.zero_slot 99
    (fun _ => Ok 5) Examples.checksum "0x5"
  = ([InstanceAt "0x5"; GetStorageAt 5 99], Ok None).
Proof.
  refine (proj2 (proj2 (proj2 (descriptor_needs_target_and_kind
            (fun _ => Ok (Some Examples.no_getter)) Examples.zero_slot 99
            (fun _ => Ok 5) Examples.checksum "0x5")))
            Examples.no_getter (fun _ _ => Ok (VStr "0x0")) 5 _ _ _ _ _ _);
    reflexivity.
Defined.

(** ** CalldataEncoder *)

Lemma is_arr_len_lookahead method_inputs last_index index input_type :
  is_arr_len method_inputs last_index index input_type = Ok true ->
  Z.of_nat index < last_index.
Proof.
  unfold is_arr_len. destruct input_type.(name) as [input_name|];
    [|discriminate].
  destruct (endswith input_name "_len"); [|discriminate].
  destruct (Z.ltb_spec (Z.of_nat index) last_index); [|discriminate].
  intros _. assumption.
Qed.

(** The loop reads [call_args] by index only below [last_index + 1]. *)
Lemma encode_arg_take method_inputs call_args last_index n st call_arg
    input_type :
  last_index < Z.of_nat n ->
  encode_arg method_inputs (take n call_args) last_index st call_arg
    input_type
  = encode_arg method_inputs call_args last_index st call_arg input_type.
Proof.
  intros Hn. unfold encode_arg.
  destruct (endswith input_type.(type) "*"); [reflexivity|].
  destruct (is_arr_len method_inputs last_index st.(index) input_type)
    as [[|]|] eqn:Hlen; try reflexivity.
  apply is_arr_len_lookahead in Hlen.
  rewrite lookup_take_lt by lia. reflexivity.
Qed.

Lemma encode_args_loop_take method_inputs call_args last_index n pairs :
  last_index < Z.of_nat n ->
  forall st,
    encode_args_loop method_inputs (take n call_args) last_index pairs st
    = encode_args_loop method_inputs call_args last_index pairs st.
Proof.
  intros Hn. induction pairs as [|[call_arg input_type] pairs IH]; intros st.
  - reflexivity.
  - cbn [encode_args_loop]. rewrite encode_arg_take by assumption.
    destruct (encode_arg _ _ _ _ _ _) as [st'|]; [|reflexivity].
    apply IH.
Qed.

Lemma pre_encode_args_take method_inputs call_args :
  pre_encode_args method_inputs (take (length method_inputs) call_args)
  = pre_encode_args method_inputs call_args.
Proof.
  unfold pre_encode_args.
  rewrite length_take.
  replace (length method_inputs `min`
             (length method_inputs `min` length call_args))%nat
    with (length method_inputs `min` length call_args)%nat by lia.
  rewrite zip_with_take_l.
  rewrite encode_args_loop_take by lia. reflexivity.
Qed.

(** C10: arguments beyond the declared inputs are ignored without an error:
    the pre-encoded list, and so the calldata of any packer, is the one of the
    first [len(inputs)] arguments, hence of the first
    [min(len(inputs), len(args))] positions. *)
Theorem surplus_arguments_ignored :
  forall (DataTransformer :
            list StructABI -> MethodABI ->
            result (list value -> result (list Z)))
         (full_abi : list StructABI) (method_abi : MethodABI)
         (call_args : list value),
    let m := Nat.min (length method_abi.(inputs)) (length call_args) in
    pre_encode_args method_abi.(inputs) call_args
    = pre_encode_args method_abi.(inputs) (take m call_args) /\
    encode_calldata DataTransformer full_abi method_abi call_args
    = encode_calldata DataTransformer full_abi method_abi (take m call_args) /\
    (forall surplus,
       length call_args = length method_abi.(inputs) ->
       encode_calldata DataTransformer full_abi method_abi
         (call_args ++ surplus)
       = encode_calldata DataTransformer full_abi method_abi call_args).
Proof.
  intros DT full_abi method_abi call_args m.
  assert (take m call_args = take (length method_abi.(inputs)) call_args) as E.
  { subst m. destruct (Nat.le_ge_cases (length method_abi.(inputs))
                         (length call_args)).
    - rewrite Nat.min_l by assumption. reflexivity.
    - rewrite Nat.min_r by assumption. rewrite !take_ge by lia. reflexivity. }
  rewrite E. unfold encode_calldata. rewrite pre_encode_args_take.
  split; [reflexivity|]. split; [reflexivity|].
  intros surplus Hlen.
  rewrite <- (pre_encode_args_take _ (call_args ++ surplus)).
  rewrite <- Hlen, take_app_length. reflexivity.
Qed.

Lemma surplus_arguments_ignored_witness :
  encode_calldata Packer.DataTransformer [] (Examples.takes Examples.len_arr)
    ([VInt 3; VList (Examples.ints [1; 2; 3])] ++ [VStr "surplus"])
  = encode_calldata Packer.DataTransformer [] (Examples.takes Examples.len_arr)
      [VInt 3; VList (Examples.ints [1; 2; 3])].
Proof.
  refine (proj2 (proj2 (surplus_arguments_ignored Packer.DataTransformer []
            (Examples.takes Examples.len_arr)
            [VInt 3; VList (Examples.ints [1; 2; 3])])) [VStr "surplus"] _).
  reflexivity.
Defined.

(** The length slot of the first length-and-array pair: whatever integer the
    caller passes for it, the array is flattened in its place and the packer
    emits the array's own size. *)
Lemma array_length_derivation (declared : Z) :
  pre_encode_args Examples.len_arr
    [VInt declared; VList (Examples.ints [1; 2; 3])]
  = Ok [VList (Examples.ints [1; 2; 3])] /\
  encode_calldata Packer.DataTransformer [] (Examples.takes Examples.len_arr)
    [VInt declared; VList (Examples.ints [1; 2; 3])]
  = Ok [3; 1; 2; 3].
Proof. split; reflexivity. Qed.

(** C1 at a signature with a second length-and-array pair: the [continue] that
    skips the first array leaves [index] one behind the position, so the
    look-ahead of the second length slot reads the slot's own type; the
    caller's length [2] is kept in the pre-encoded list, the array that
    follows is pre-encoded once more, and the packer, which expects one
    argument per array, refuses the list.  Without the explicit lengths the
    same arrays encode. *)
Theorem second_length_slot_not_ignored :
  pre_encode_args Examples.two_arrays
    [VInt 3; VList (Examples.ints [1; 2; 3]);
     VInt 2; VList (Examples.ints [4; 5])]
  = Ok [VList (Examples.ints [1; 2; 3]); VInt 2;
        VList (Examples.ints [4; 5])] /\
  encode_calldata Packer.DataTransformer []
    (Examples.takes Examples.two_arrays)
    [VInt 3; VList (Examples.ints [1; 2; 3]);
     VInt 2; VList (Examples.ints [4; 5])]
  = Raise TypeError /\
  encode_calldata Packer.DataTransformer []
    (Examples.takes Examples.two_arrays)
    [VList (Examples.ints [1; 2; 3]); VList (Examples.ints [4; 5])]
  = Ok [3; 1; 2; 3; 2; 4; 5].
Proof. repeat split. Qed.

(** ** Encoding, then decoding *)

Lemma is_arr_len_of_felts method_inputs last_index index input_type :
  Forall is_felt method_inputs ->
  last_index < Z.of_nat (length method_inputs) ->
  is_arr_len method_inputs last_index index input_type = Ok false.
Proof.
  intros Hfelt Hlast. unfold is_arr_len.
  destruct input_type.(name) as [input_name|]; [|reflexivity].
  destruct (endswith input_name "_len"); [|reflexivity].
  destruct (Z.ltb_spec (Z.of_nat index) last_index); [|reflexivity].
  cbn [andb].
  destruct (method_inputs !! S index) as [nxt|] eqn:Hnext.
  - rewrite Forall_lookup in Hfelt. rewrite (Hfelt _ _ Hnext). reflexivity.
  - apply lookup_ge_None in Hnext. lia.
Qed.

Lemma encode_args_loop_of_felts method_inputs call_args last_index :
  Forall is_felt method_inputs ->
  last_index < Z.of_nat (length method_inputs) ->
  forall (ns : list Z) (sig : list ABIType) (st : encoder_state),
    Forall is_felt sig ->
    length ns = length sig ->
    pre_encoded_args <$>
      encode_args_loop method_inputs call_args last_index
        (zip (VInt <$> ns) sig) st
    = Ok (st.(pre_encoded_args) ++ (VInt <$> ns)).
Proof.
  intros Hfelt Hlast.
  induction ns as [|n ns IH]; intros sig st Hsig Hlen.
  - cbn. rewrite app_nil_r. reflexivity.
  - destruct sig as [|t sig]; [discriminate|].
    inversion Hsig as [|? ? Ht Hsig']; subst.
    cbn [fmap list_fmap zip_with encode_args_loop].
    unfold encode_arg. rewrite Ht.
    change (endswith "felt" "*") with false. cbv iota.
    rewrite is_arr_len_of_felts by assumption.
    cbn [mbind result_bind _pre_encode_value encode_primitive_value mret
         result_ret].
    rewrite IH by (try assumption; cbn in Hlen; lia).
    cbn [pre_encoded_args]. rewrite <- app_assoc. reflexivity.
Qed.

Lemma pre_encode_args_of_felts (sig : list ABIType) (ns : list Z) :
  Forall is_felt sig ->
  length ns = length sig ->
  pre_encode_args sig (VInt <$> ns) = Ok (VInt <$> ns).
Proof.
  intros Hsig Hlen. unfold pre_encode_args.
  rewrite encode_args_loop_of_felts; try assumption; [reflexivity|lia].
Qed.

Lemma pack_felt full_abi (n : Z) :
  0 <= n < Packer.FIELD_PRIME ->
  Packer.pack_value full_abi "felt" (VInt n) = Ok [n].
Proof.
  intros [H0 HP].
  change (Packer.pack_value full_abi "felt" (VInt n))
    with (if Packer.is_field_element n then Ok (A := list Z) [n]
          else Raise ValueError).
  unfold Packer.is_field_element.
  destruct (Z.leb_spec 0 n); [|lia].
  destruct (Z.ltb_spec n Packer.FIELD_PRIME); [reflexivity|lia].
Qed.

Lemma pack_inputs_of_felts full_abi (sig : list ABIType) : forall ns : list Z,
  Forall is_felt sig ->
  Forall (fun n => 0 <= n < Packer.FIELD_PRIME) ns ->
  length ns = length sig ->
  Packer.pack_inputs full_abi sig (VInt <$> ns) = Ok ns.
Proof.
  induction sig as [|t sig IH]; intros ns Hsig Hns Hlen.
  - destruct ns; [reflexivity|discriminate].
  - destruct ns as [|n ns]; [discriminate|].
    inversion Hsig as [|? ? Ht Hsig']; subst.
    inversion Hns as [|? ? Hfe Hns']; subst.
    cbn [fmap list_fmap Packer.pack_inputs].
    assert (Packer.is_length_slot t sig = false) as ->.
    { unfold Packer.is_length_slot. destruct t.(name); [|reflexivity].
      destruct Hsig' as [|nxt ? Hn _]; [reflexivity|].
      rewrite Hn. apply andb_false_r. }
    rewrite Ht, (pack_felt full_abi n Hfe).
    cbn [mbind result_bind]. change (list_fmap Z value VInt ns)
      with (VInt <$> ns).
    rewrite IH by (try assumption; cbn in Hlen; lia). reflexivity.
Qed.

Lemma zip_longest_tail {A : Type} (x : A) (l : list A) :
  zip_longest (x :: l) l = (Some x, head l) :: zip_longest l (tail l).
Proof. destruct l; reflexivity. Qed.

Lemma decode_outputs_of_felts (sig : list ABIType) :
  forall (ns : list Z) (decoded : list value),
    Forall is_felt sig ->
    length ns = length sig ->
    decode_outputs (zip_longest sig (tail sig)) decoded (VInt <$> ns)
    = Ok (decoded ++ (VInt <$> ns), []).
Proof.
  induction sig as [|t sig IH]; intros ns decoded Hsig Hlen.
  - destruct ns; [|discriminate]. cbn. rewrite app_nil_r. reflexivity.
  - destruct ns as [|n ns]; [discriminate|].
    inversion Hsig as [|? ? Ht Hsig']; subst.
    cbn [tail]. rewrite zip_longest_tail. cbn [decode_outputs].
    rewrite iter_bind_eq. unfold decode_output. rewrite Ht.
    assert (next_is_array (head sig) = false) as ->.
    { destruct Hsig' as [|nxt ? Hn _]; [reflexivity|].
      cbn. rewrite Hn. reflexivity. }
    cbn [String.eqb Ascii.eqb Bool.eqb andb fmap list_fmap].
    rewrite iter_bind_eq. cbn [next mret iterM_ret].
    change (list_fmap Z value VInt ns) with (VInt <$> ns).
    rewrite IH by (try assumption; cbn in Hlen; lia).
    rewrite <- app_assoc. reflexivity.
Qed.

(** C5, as the code has it: for a signature of scalar [felt] entries only (no
    wide integer, no array, no struct) and as many field elements [v]
    (integers of [[0, FIELD_PRIME)]), decoding the encoding of [v] gives [v]
    back: as the sequence itself when there are no or at least two entries,
    as the bare element when there is one. *)
Theorem roundtrip_of_felts :
  forall (full_abi : list StructABI) (sig : list ABIType) (ns : list Z),
    Forall (fun t => t.(type) = "felt"%string) sig ->
    Forall (fun n => 0 <= n < Packer.FIELD_PRIME) ns ->
    length ns = length sig ->
    roundtrip full_abi sig (VInt <$> ns)
    = Ok match ns with
         | [n] => VInt n
         | _ => VList (VInt <$> ns)
         end.
Proof.
  intros full_abi sig ns Hsig Hns Hlen. unfold roundtrip, encode_calldata.
  cbn [Packer.DataTransformer signature_method inputs mbind result_bind].
  rewrite pre_encode_args_of_felts by assumption.
  cbn [mbind result_bind].
  rewrite pack_inputs_of_felts by assumption.
  cbn [mbind result_bind].
  destruct ns as [|n [|n' ns]]; try reflexivity.
  unfold decode_returndata.
  rewrite (mapM_ints (n :: n' :: ns)).
  cbn [mbind result_bind outputs signature_method].
  rewrite (decode_outputs_of_felts sig (n :: n' :: ns)) by assumption.
  cbn [length Nat.eqb].
  replace (keep_only_expected sig) with false; [reflexivity|].
  unfold keep_only_expected. rewrite <- Hlen. cbn [length Nat.eqb orb].
  destruct ns; [|reflexivity]. cbn [length Nat.eqb andb].
  destruct sig as [|t1 [|t2 sig]]; try discriminate.
  inversion Hsig as [|? ? _ Hsig']. inversion Hsig' as [|? ? H2 _].
  cbn. rewrite H2. reflexivity.
Qed.

Lemma roundtrip_of_felts_witness :
  roundtrip [] [Examples.field "x" "felt"; Examples.field "y_len" "felt"]
    (VInt <$> [7; 9])
  = Ok (VList (VInt <$> [7; 9])).
Proof.
  refine (roundtrip_of_felts []
            [Examples.field "x" "felt"; Examples.field "y_len" "felt"]
            [7; 9] _ _ _).
  - repeat constructor.
  - repeat constructor; vm_compute; congruence.
  - reflexivity.
Defined.

(** C5 as stated fails: a signature with a struct-typed entry has neither a
    wide-integer nor an array type, yet the struct is packed into one element
    per member and the decoder reads a single element for the entry. *)
Lemma roundtrip_of_struct_fails :
  roundtrip [Examples.Point] Examples.point_sig [Examples.point_1_2]
  = Ok (VInt 1) /\
  Ok (VInt 1) <> Ok (VList [Examples.point_1_2]) /\
  Ok (VInt 1) <> Ok Examples.point_1_2.
Proof. repeat split; discriminate. Qed.

(** An integer outside the field has no round trip: the packer refuses it. *)
Lemma roundtrip_outside_field_raises :
  roundtrip [] [Examples.field "x" "felt"] [VInt (-1)] = Raise ValueError /\
  roundtrip [] [Examples.field "x" "felt"] [VInt Packer.FIELD_PRIME]
  = Raise ValueError /\
  roundtrip [] [Examples.field "x" "felt"] [VInt (Packer.FIELD_PRIME - 1)]
  = Ok (VInt (Packer.FIELD_PRIME - 1)).
Proof. repeat split; vm_compute; reflexivity. Qed.

(** * Further properties of the flattener *)

(** Induction on values that goes through lists and dictionaries. *)
Lemma value_nested_ind (P : value -> Prop) :
  P VNone ->
  (forall n, P (VInt n)) ->
  (forall s, P (VStr s)) ->
  (forall b, P (VBytes b)) ->
  (forall b, P (VHexBytes b)) ->
  (forall l, Forall P l -> P (VList l)) ->
  (forall l, Forall P l -> P (VTuple l)) ->
  (forall d, Forall (fun kv => P kv.2) d -> P (VDict d)) ->
  forall v, P v.
Proof.
  intros HNone HInt HStr HBytes HHex HList HTuple HDict.
  fix IH 1. intros [ |n|s|b|b|l|l|d].
  - exact HNone.
  - apply HInt.
  - apply HStr.
  - apply HBytes.
  - apply HHex.
  - apply HList. induction l as [|x l IHl]; constructor;
      [apply IH|exact IHl].
  - apply HTuple. induction l as [|x l IHl]; constructor;
      [apply IH|exact IHl].
  - apply HDict. induction d as [|[k x] d IHd]; constructor;
      [apply IH|exact IHd].
Qed.

Lemma mapM_Ok_inv {A B : Type} (f : A -> result B) (l : list A) :
  forall k, mapM f l = Ok k -> Forall2 (fun x y => f x = Ok y) l k.
Proof.
  induction l as [|x l IH]; intros k H.
  - inversion H. constructor.
  - rewrite mapM_cons in H. destruct (f x) as [y|] eqn:Hx; [|discriminate].
    cbn in H. destruct (mapM f l) as [k'|]; [|discriminate].
    inversion H; subst. constructor; auto.
Qed.

Lemma mapM_Raise_inv {A B : Type} (f : A -> result B) (l : list A) e :
  mapM f l = Raise e -> Exists (fun x => f x = Raise e) l.
Proof.
  induction l as [|x l IH]; intros H; [discriminate|].
  rewrite mapM_cons in H. destruct (f x) as [y|e'] eqn:Hx.
  - cbn in H. destruct (mapM f l) as [k'|e'']; [discriminate|].
    inversion H; subst. right. apply IH. reflexivity.
  - inversion H; subst. left. assumption.
Qed.

Lemma encode_primitive_value_raises_ValueError v e :
  encode_primitive_value v = Raise e -> e = ValueError.
Proof.
  unfold encode_primitive_value, int_base16.
  destruct v as [ |n|s|b|b|l|l|d]; try discriminate.
  - destruct (is_0x_prefixed s); [|discriminate].
    destruct (PyInt.int16 s); [discriminate|]. congruence.
  - destruct (PyInt.int16 _); [discriminate|]. congruence.
Qed.

Lemma encode_primitive_value_result v r :
  encode_primitive_value v = Ok r ->
  match v with
  | VStr s => if is_0x_prefixed s then exists n, r = VInt n else r = v
  | VHexBytes _ => exists n, r = VInt n
  | _ => r = v
  end.
Proof.
  unfold encode_primitive_value, int_base16.
  destruct v as [ |n|s|b|b|l|l|d]; try (intros H; inversion H; reflexivity).
  - destruct (is_0x_prefixed s); [|intros H; inversion H; reflexivity].
    destruct (PyInt.int16 s); [|discriminate]. intros H; inversion H. eauto.
  - destruct (PyInt.int16 _); [|discriminate]. intros H; inversion H. eauto.
Qed.

(** X1: the coercer is idempotent and fails in one way only: what it returns
    it returns unchanged when coerced again, and the only exception that
    leaves it is [ValueError]. *)
Theorem encode_primitive_value_idempotent :
  forall v,
    (forall r, encode_primitive_value v = Ok r ->
               encode_primitive_value r = Ok r) /\
    (forall e, encode_primitive_value v = Raise e -> e = ValueError).
Proof.
  intros v. split; [|apply encode_primitive_value_raises_ValueError].
  intros r H. pose proof (encode_primitive_value_result v r H) as Hr.
  destruct v as [ |n|s|b|b|l|l|d]; try (subst r; reflexivity).
  - destruct (is_0x_prefixed s) eqn:Hs.
    + destruct Hr as [n ->]. reflexivity.
    + subst r. cbn. rewrite Hs. reflexivity.
  - destruct Hr as [n ->]. reflexivity.
Qed.

Lemma encode_primitive_value_idempotent_witness :
  encode_primitive_value (VInt 255) = Ok (VInt 255).
Proof.
  apply (proj1 (encode_primitive_value_idempotent (VStr "0xff")) (VInt 255)).
  reflexivity.
Defined.

Lemma pre_encoded_leaf v r :
  match v with VList _ | VTuple _ | VDict _ => False | _ => True end ->
  encode_primitive_value v = Ok r -> pre_encoded r = true.
Proof.
  intros Hleaf H. pose proof (encode_primitive_value_result v r H) as Hr.
  destruct v as [ |n|s|b|b|l|l|d]; try contradiction; try (subst r; reflexivity).
  - destruct (is_0x_prefixed s) eqn:Hs.
    + destruct Hr as [n ->]. reflexivity.
    + subst r. cbn. rewrite Hs. reflexivity.
  - destruct Hr as [n ->]. reflexivity.
Qed.

Lemma _pre_encode_value_list l :
  _pre_encode_value (VList l) = VList <$> mapM _pre_encode_value l.
Proof. reflexivity. Qed.

Lemma _pre_encode_value_tuple l :
  _pre_encode_value (VTuple l) = VList <$> mapM _pre_encode_value l.
Proof. reflexivity. Qed.

Lemma _pre_encode_value_dict d :
  _pre_encode_value (VDict d)
  = VDict <$> mapM (fun kv => x ← _pre_encode_value kv.2; mret (kv.1, x)) d.
Proof. reflexivity. Qed.

Lemma fmap_Ok_inv {A B : Type} (f : A -> B) (m : result A) (b : B) :
  f <$> m = Ok b -> exists a, m = Ok a /\ b = f a.
Proof. destruct m; intros H; inversion H; eauto. Qed.

Lemma fmap_Raise_inv {A B : Type} (f : A -> B) (m : result A) e :
  f <$> m = Raise e -> m = Raise e.
Proof. destruct m; intros H; inversion H; reflexivity. Qed.

Lemma pre_encode_entry_inv (kv : string * value) (kr : string * value) :
  (x ← _pre_encode_value kv.2; mret (kv.1, x)) = Ok kr ->
  kr.1 = kv.1 /\ _pre_encode_value kv.2 = Ok kr.2.
Proof.
  destruct (_pre_encode_value kv.2) as [x|]; [|discriminate].
  intros H. inversion H. split; reflexivity.
Qed.

Lemma _pre_encode_value_pre_encoded : forall v r,
  _pre_encode_value v = Ok r -> pre_encoded r = true.
Proof.
  induction v as [ |n|s|b|b|l IH|l IH|d IH] using value_nested_ind;
    intros r H; try (eapply pre_encoded_leaf; [|exact H]; exact I).
  - rewrite _pre_encode_value_list in H.
    apply fmap_Ok_inv in H as (k & Hk & ->). apply mapM_Ok_inv in Hk.
    cbn [pre_encoded]. clear -IH Hk.
    induction Hk as [|x y l k Hxy _ IHk]; [reflexivity|].
    inversion IH; subst. cbn. rewrite IHk by assumption.
    rewrite (H1 _ Hxy). reflexivity.
  - rewrite _pre_encode_value_tuple in H.
    apply fmap_Ok_inv in H as (k & Hk & ->). apply mapM_Ok_inv in Hk.
    cbn [pre_encoded]. clear -IH Hk.
    induction Hk as [|x y l k Hxy _ IHk]; [reflexivity|].
    inversion IH; subst. cbn. rewrite IHk by assumption.
    rewrite (H1 _ Hxy). reflexivity.
  - rewrite _pre_encode_value_dict in H.
    apply fmap_Ok_inv in H as (k & Hk & ->). apply mapM_Ok_inv in Hk.
    cbn [pre_encoded]. clear -IH Hk.
    induction Hk as [|x y l k Hxy _ IHk]; [reflexivity|].
    inversion IH; subst. apply pre_encode_entry_inv in Hxy as [_ Hxy].
    cbn. rewrite IHk by assumption. rewrite (H1 _ Hxy). reflexivity.
Qed.

Lemma _pre_encode_value_fixed : forall v,
  pre_encoded v = true -> _pre_encode_value v = Ok v.
Proof.
  induction v as [ |n|s|b|b|l IH|l IH|d IH] using value_nested_ind;
    intros H; try reflexivity; try discriminate.
  - cbn in H. cbn. destruct (is_0x_prefixed s); [discriminate|reflexivity].
  - rewrite _pre_encode_value_list. cbn [pre_encoded] in H.
    rewrite mapM_Ok_id; [reflexivity|].
    induction IH as [|x l Hx _ IHl]; constructor;
      cbn in H; apply andb_true_iff in H as [H1 H2]; auto.
  - rewrite _pre_encode_value_dict. cbn [pre_encoded] in H.
    rewrite mapM_Ok_id; [reflexivity|].
    induction IH as [|[k x] d Hx _ IHd]; constructor;
      cbn in H; apply andb_true_iff in H as [H1 H2]; auto.
    cbn in *. rewrite (Hx H1). reflexivity.
Qed.

(** X2: the flattener produces values in pre-encoded form (no tuple, no
    [HexBytes], no hex-prefixed string at any depth), leaves such values as
    they are, and so is idempotent. *)
Theorem _pre_encode_value_normalises :
  forall v r,
    _pre_encode_value v = Ok r ->
    pre_encoded r = true /\ _pre_encode_value r = Ok r.
Proof.
  intros v r H. pose proof (_pre_encode_value_pre_encoded v r H) as Hr.
  split; [assumption|]. apply _pre_encode_value_fixed. assumption.
Qed.

Lemma _pre_encode_value_normalises_witness :
  pre_encoded (VList [VInt 16; VDict [("k"%string, VList [VInt 1])]]) = true /\
  _pre_encode_value (VList [VInt 16; VDict [("k"%string, VList [VInt 1])]])
  = Ok (VList [VInt 16; VDict [("k"%string, VList [VInt 1])]]).
Proof.
  apply (_pre_encode_value_normalises
           (VTuple [VStr "0x10"; VDict [("k"%string, VTuple [VInt 1])]])).
  reflexivity.
Defined.

(** X3: the flattener keeps the shape of a container: a dictionary comes
    back as a dictionary with the same keys in the same order, a list or a
    tuple of [n] items as a list of [n] items. *)
Theorem _pre_encode_value_keeps_shape :
  forall r,
    (forall d, _pre_encode_value (VDict d) = Ok r ->
       exists d', r = VDict d' /\ d'.*1 = d.*1) /\
    (forall l, _pre_encode_value (VList l) = Ok r
               \/ _pre_encode_value (VTuple l) = Ok r ->
       exists l', r = VList l' /\ length l' = length l).
Proof.
  intros r. split.
  - intros d H. rewrite _pre_encode_value_dict in H.
    apply fmap_Ok_inv in H as (d' & Hd & ->). exists d'.
    split; [reflexivity|]. apply mapM_Ok_inv in Hd.
    induction Hd as [|kv kr d d' Hkv _ IH]; [reflexivity|].
    apply pre_encode_entry_inv in Hkv as [Hk _].
    cbn. rewrite Hk, IH. reflexivity.
  - intros l H.
    assert (VList <$> mapM _pre_encode_value l = Ok r) as H'
      by (destruct H as [H|H]; exact H).
    apply fmap_Ok_inv in H' as (l' & Hl & ->). exists l'.
    split; [reflexivity|]. eapply mapM_result_length. exact Hl.
Qed.

Lemma _pre_encode_value_keeps_shape_witness :
  exists d', VDict [("b"%string, VInt 2); ("a"%string, VInt 1)] = VDict d'
             /\ d'.*1 = ["b"%string; "a"%string].
Proof.
  apply (proj1 (_pre_encode_value_keeps_shape
                  (VDict [("b"%string, VInt 2); ("a"%string, VInt 1)]))
           [("b"%string, VStr "0x2"); ("a"%string, VInt 1)]).
  reflexivity.
Defined.

Lemma _pre_encode_sequence_length (l : list value) (r : value) :
  VList <$> mapM _pre_encode_value l = Ok r ->
  exists l', r = VList l' /\ length l' = length l.
Proof.
  intros H. apply fmap_Ok_inv in H as (l' & Hl & ->). exists l'.
  split; [reflexivity|]. eapply mapM_result_length. exact Hl.
Qed.

(** X4: [_pre_encode_array] always gives a list: a list or tuple of [n] items
    gives [n] items, and any other value, a dictionary included, is wrapped
    into a list of one item, the value pre-encoded. *)
Theorem _pre_encode_array_gives_list :
  forall array r,
    _pre_encode_array array = Ok r ->
    exists l,
      r = VList l /\
      match array with
      | VList a | VTuple a => length l = length a
      | _ => exists x, _pre_encode_value array = Ok x /\ l = [x]
      end.
Proof.
  intros array r H.
  assert (forall v, VList <$> mapM _pre_encode_value [v] = Ok r ->
            exists l, r = VList l /\
                      exists x, _pre_encode_value v = Ok x /\ l = [x]) as Hone.
  { intros v Hv. rewrite mapM_cons, mapM_nil in Hv.
    destruct (_pre_encode_value v) as [x|]; [|discriminate].
    inversion Hv. eauto. }
  destruct array as [ |n|s|b|b|a|a|d]; try (apply Hone; exact H).
  - apply _pre_encode_sequence_length. exact H.
  - apply _pre_encode_sequence_length. exact H.
Qed.

Lemma _pre_encode_array_gives_list_witness :
  exists l,
    VList [VDict [("x"%string, VInt 1)]] = VList l /\
    exists x, _pre_encode_value (VDict [("x"%string, VStr "0x1")]) = Ok x
              /\ l = [x].
Proof.
  apply (_pre_encode_array_gives_list (VDict [("x"%string, VStr "0x1")])).
  reflexivity.
Defined.

Lemma _pre_encode_value_raises_ValueError : forall v e,
  _pre_encode_value v = Raise e -> e = ValueError.
Proof.
  induction v as [ |n|s|b|b|l IH|l IH|d IH] using value_nested_ind;
    intros e H;
    try (eapply encode_primitive_value_raises_ValueError; exact H).
  - rewrite _pre_encode_value_list in H. apply fmap_Raise_inv in H.
    apply mapM_Raise_inv in H. rewrite Forall_forall in IH.
    apply Exists_exists in H as (x & Hin & Hx). eapply IH; eassumption.
  - rewrite _pre_encode_value_tuple in H. apply fmap_Raise_inv in H.
    apply mapM_Raise_inv in H. rewrite Forall_forall in IH.
    apply Exists_exists in H as (x & Hin & Hx). eapply IH; eassumption.
  - rewrite _pre_encode_value_dict in H. apply fmap_Raise_inv in H.
    apply mapM_Raise_inv in H. rewrite Forall_forall in IH.
    apply Exists_exists in H as (kv & Hin & Hx).
    apply (IH kv Hin e).
    destruct (_pre_encode_value kv.2) as [x|e']; [discriminate|].
    inversion Hx. reflexivity.
Qed.

Lemma _pre_encode_array_raises_ValueError array e :
  _pre_encode_array array = Raise e -> e = ValueError.
Proof.
  intros H.
  assert (forall v, VList <$> mapM _pre_encode_value [v] = Raise e ->
                    e = ValueError) as Hone.
  { intros v Hv. rewrite mapM_cons, mapM_nil in Hv.
    destruct (_pre_encode_value v) as [x|e'] eqn:Hx; [discriminate|].
    inversion Hv; subst. eapply _pre_encode_value_raises_ValueError.
    exact Hx. }
  destruct array as [ |n|s|b|b|a|a|d]; try (apply (Hone _ H)).
  - apply (_pre_encode_value_raises_ValueError (VList a)). exact H.
  - apply (_pre_encode_value_raises_ValueError (VTuple a)). exact H.
Qed.

(** X5: the flattener fails in one way only: the exception that leaves
    [_pre_encode_value] or [_pre_encode_array] is the [ValueError] of a
    leaf that is no base-16 literal, and a value that is already in
    pre-encoded form never fails. *)
Theorem flattener_raises_only_ValueError :
  forall v,
    (forall e, _pre_encode_value v = Raise e -> e = ValueError) /\
    (forall e, _pre_encode_array v = Raise e -> e = ValueError) /\
    (pre_encoded v = true -> exists r, _pre_encode_array v = Ok r).
Proof.
  intros v. split; [apply _pre_encode_value_raises_ValueError|].
  split; [apply _pre_encode_array_raises_ValueError|].
  intros Hv. pose proof (_pre_encode_value_fixed v Hv) as Hfix.
  destruct v as [ |n|s|b|b|a|a|d]; try discriminate;
    try (unfold _pre_encode_array; rewrite mapM_cons, mapM_nil, Hfix;
         eexists; reflexivity).
  exists (VList a). exact Hfix.
Qed.

Lemma flattener_raises_only_ValueError_witness :
  exists r, _pre_encode_array (VList [VInt 1; VStr "felt"]) = Ok r.
Proof.
  apply (proj2 (proj2 (flattener_raises_only_ValueError
                         (VList [VInt 1; VStr "felt"])))).
  reflexivity.
Defined.

(** * Further properties of the calldata encoder *)

Lemma is_arr_len_cases method_inputs last_index index input_type :
  last_index < Z.of_nat (length method_inputs) ->
  is_arr_len method_inputs last_index index input_type = Ok false \/
  (is_arr_len method_inputs last_index index input_type = Ok true /\
   Z.of_nat index < last_index /\
   exists nxt, method_inputs !! S index = Some nxt /\
               has_array_type nxt = true).
Proof.
  intros Hlast. unfold is_arr_len.
  destruct input_type.(name) as [input_name|]; [|left; reflexivity].
  destruct (endswith input_name "_len"); [|left; reflexivity].
  destruct (Z.ltb_spec (Z.of_nat index) last_index); [|left; reflexivity].
  cbn [andb].
  destruct (method_inputs !! S index) as [nxt|] eqn:Hnext.
  - destruct (endswith nxt.(type) "*") eqn:Harr; [|left; reflexivity].
    right. split; [reflexivity|]. split; [assumption|]. eauto.
  - apply lookup_ge_None in Hnext. lia.
Qed.

Lemma encode_arg_raises_ValueError method_inputs call_args st call_arg
    input_type e :
  encode_arg method_inputs call_args
    (last_index_of method_inputs call_args) st call_arg input_type = Raise e ->
  e = ValueError.
Proof.
  unfold encode_arg. intros H.
  destruct (endswith input_type.(type) "*").
  { destruct st.(did_process_array_during_arr_len); [discriminate|].
    destruct (_pre_encode_value call_arg) as [x|e'] eqn:Hx; [discriminate|].
    inversion H; subst. eapply _pre_encode_value_raises_ValueError; exact Hx. }
  destruct (is_arr_len_cases method_inputs
              (last_index_of method_inputs call_args) st.(index) input_type)
    as [Hno|(Hyes & Hlt & _)]; [unfold last_index_of; lia| |].
  - rewrite Hno in H. cbn in H.
    destruct (_pre_encode_value call_arg) as [x|e'] eqn:Hx; [discriminate|].
    inversion H; subst. eapply _pre_encode_value_raises_ValueError; exact Hx.
  - rewrite Hyes in H. cbn in H.
    destruct (_pre_encode_value call_arg) as [x|e'] eqn:Hx.
    + cbn in H.
      destruct x; try discriminate.
      destruct (call_args !! S st.(index)) as [array|] eqn:Harr.
      * destruct (_pre_encode_array array) as [y|e'] eqn:Hy; [discriminate|].
        inversion H; subst.
        eapply _pre_encode_array_raises_ValueError; exact Hy.
      * apply lookup_ge_None in Harr. unfold last_index_of in Hlt. lia.
    + inversion H; subst.
      eapply _pre_encode_value_raises_ValueError; exact Hx.
Qed.

(** X6: the loop of [encode_calldata] fails in one way only: its two indexed
    reads, [method_abi.inputs[index + 1]] and [call_args[array_index]], are
    always in range, so no [IndexError] leaves it, and the only exception is
    the [ValueError] of an argument that is no base-16 literal. *)
Theorem pre_encode_args_raises_only_ValueError :
  forall (method_inputs : list ABIType) (call_args : list value) e,
    pre_encode_args method_inputs call_args = Raise e -> e = ValueError.
Proof.
  intros method_inputs call_args e H. unfold pre_encode_args in H.
  apply fmap_Raise_inv in H.
  fold (last_index_of method_inputs call_args) in H.
  revert H. generalize (zip call_args method_inputs).
  generalize {| pre_encoded_args := []; index := 0;
                did_process_array_during_arr_len := false |}.
  intros st pairs. revert st.
  induction pairs as [|[call_arg input_type] pairs IH]; intros st H;
    [discriminate|].
  cbn [encode_args_loop] in H.
  destruct (encode_arg _ _ _ st call_arg input_type) as [st'|e'] eqn:Hstep.
  - apply (IH st'). exact H.
  - inversion H; subst. eapply encode_arg_raises_ValueError. exact Hstep.
Qed.

Lemma pre_encode_args_raises_only_ValueError_witness :
  ValueError = ValueError.
Proof.
  apply (pre_encode_args_raises_only_ValueError Examples.len_arr
           [VInt 3; VList [VStr "0xzz"]]).
  reflexivity.
Defined.

(** One round of the loop keeps the variables in one of the three phases. *)
Lemma encode_arg_phase method_inputs call_args p st call_arg input_type st' :
  method_inputs !! p = Some input_type ->
  loop_phase method_inputs
    (last_index_of method_inputs call_args) p st ->
  encode_arg method_inputs call_args
    (last_index_of method_inputs call_args) st call_arg input_type = Ok st' ->
  loop_phase method_inputs
    (last_index_of method_inputs call_args) (S p) st'.
Proof.
  intros Hp Hphase H. unfold encode_arg in H.
  assert (forall x,
            length (st.(pre_encoded_args) ++ [x])
            = S (length st.(pre_encoded_args))) as Hlen
    by (intros x; rewrite length_app; cbn; lia).
  destruct (endswith input_type.(type) "*") eqn:Harr.
  { destruct Hphase as [Hi Hl Hd | t Hi Hl Hd _ _ _ | Hi Hl Hd];
      rewrite Hd in H.
    - destruct (_pre_encode_value call_arg) as [x|]; [|discriminate].
      inversion H; subst st'. apply in_step; cbn; rewrite ?Hlen; congruence.
    - inversion H; subst st'. apply one_behind; cbn; congruence.
    - destruct (_pre_encode_value call_arg) as [x|]; [|discriminate].
      inversion H; subst st'. apply one_behind; cbn; rewrite ?Hlen;
        congruence. }
  destruct Hphase as [Hi Hl Hd | t Hi Hl Hd _ Ht Harr' | Hi Hl Hd].
  - destruct (is_arr_len_cases method_inputs
                (last_index_of method_inputs call_args) st.(index) input_type)
      as [Hno|(Hyes & Hlt & nxt & Hnxt & Hnarr)]; [unfold last_index_of; lia| |].
    + rewrite Hno in H. cbn in H.
      destruct (_pre_encode_value call_arg) as [x|]; [|discriminate].
      inversion H; subst st'. apply in_step; cbn; rewrite ?Hlen; congruence.
    + rewrite Hyes in H. cbn in H.
      destruct (_pre_encode_value call_arg) as [x|]; [|discriminate].
      cbn in H.
      destruct x;
        try (inversion H; subst st'; apply in_step; cbn; rewrite ?Hlen;
             congruence).
      destruct (call_args !! S st.(index)) as [array|]; [|discriminate].
      destruct (_pre_encode_array array) as [y|]; [|discriminate].
      inversion H; subst st'. rewrite Hi in Hnxt.
      apply (array_taken _ _ _ _ nxt); cbn; rewrite ?Hlen; try congruence.
      lia.
  - unfold has_array_type in Harr'. congruence.
  - assert (is_arr_len method_inputs (last_index_of method_inputs call_args)
              st.(index) input_type = Ok false) as Hno.
    { unfold is_arr_len. destruct input_type.(name); [|reflexivity].
      destruct (endswith _ "_len" && _); [|reflexivity].
      rewrite Hi, Hp, Harr. reflexivity. }
    rewrite Hno in H. cbn in H.
    destruct (_pre_encode_value call_arg) as [x|]; [|discriminate].
    inversion H; subst st'. apply one_behind; cbn; rewrite ?Hlen; congruence.
Qed.

Lemma encode_args_loop_phase method_inputs call_args :
  forall pairs p st st',
    drop p (zip call_args method_inputs) = pairs ->
    loop_phase method_inputs
    (last_index_of method_inputs call_args) p st ->
    encode_args_loop method_inputs call_args
      (last_index_of method_inputs call_args) pairs st = Ok st' ->
    loop_phase method_inputs
      (last_index_of method_inputs call_args) (p + length pairs) st'.
Proof.
  induction pairs as [|[call_arg input_type] pairs IH];
    intros p st st' Hdrop Hphase H.
  - inversion H; subst. rewrite Nat.add_0_r. assumption.
  - cbn [encode_args_loop] in H.
    destruct (encode_arg _ _ _ st call_arg input_type) as [st1|] eqn:Hstep;
      [|discriminate].
    assert (zip call_args method_inputs !! p = Some (call_arg, input_type))
      as Hlook.
    { pose proof (lookup_drop (zip call_args method_inputs) p 0) as Hl.
      rewrite Hdrop in Hl. rewrite Nat.add_0_r in Hl. symmetry. exact Hl. }
    pose proof (drop_S _ _ _ Hlook) as Hnext. rewrite Hdrop in Hnext.
    apply lookup_zip_with_Some in Hlook as (a & t & E & _ & Ht).
    inversion E; subst a t.
    cbn [length]. replace (p + S (length pairs))%nat
      with (S p + length pairs)%nat by lia.
    apply (IH (S p) st1 st').
    + inversion Hnext. reflexivity.
    + eapply encode_arg_phase; eassumption.
    + exact H.
Qed.

(** X7: at most one position is left out of the pre-encoded list: for [m]
    the smaller of the numbers of inputs and of arguments, the list has [m]
    entries, or [m - 1] when a length slot took the array that follows it.
    A second array is never folded into its length slot. *)
Theorem pre_encode_args_length :
  forall (method_inputs : list ABIType) (call_args pre_encoded : list value),
    pre_encode_args method_inputs call_args = Ok pre_encoded ->
    let m := Nat.min (length method_inputs) (length call_args) in
    length pre_encoded = m \/ S (length pre_encoded) = m.
Proof.
  intros method_inputs call_args pre_encoded H m. unfold pre_encode_args in H.
  apply fmap_Ok_inv in H as (st' & Hloop & ->).
  fold (last_index_of method_inputs call_args) in Hloop.
  assert (loop_phase method_inputs
            (last_index_of method_inputs call_args) 0
            {| pre_encoded_args := []; index := 0;
               did_process_array_during_arr_len := false |}) as Hstart
    by (apply in_step; reflexivity).
  pose proof (encode_args_loop_phase method_inputs call_args _ 0 _ st'
                eq_refl Hstart Hloop) as Hphase.
  rewrite Nat.add_0_l, drop_0, length_zip_with in Hphase.
  replace (length call_args `min` length method_inputs)%nat with m in Hphase
    by (subst m; lia).
  destruct Hphase as [_ Hl _ | t _ _ _ Hle _ _ | _ Hl _].
  - left. exact Hl.
  - unfold last_index_of in Hle. subst m. lia.
  - right. exact Hl.
Qed.

Lemma pre_encode_args_length_witness :
  length [VList (Examples.ints [1; 2; 3]); VInt 2;
          VList (Examples.ints [4; 5])] = 4%nat \/
  S (length [VList (Examples.ints [1; 2; 3]); VInt 2;
             VList (Examples.ints [4; 5])]) = 4%nat.
Proof.
  apply (pre_encode_args_length Examples.two_arrays
           [VInt 3; VList (Examples.ints [1; 2; 3]);
            VInt 2; VList (Examples.ints [4; 5])]).
  reflexivity.
Defined.

Lemma is_arr_len_without_arrays method_inputs last_index index input_type :
  Forall (fun t => has_array_type t = false) method_inputs ->
  last_index < Z.of_nat (length method_inputs) ->
  is_arr_len method_inputs last_index index input_type = Ok false.
Proof.
  intros Hno Hlast.
  destruct (is_arr_len_cases method_inputs last_index index input_type Hlast)
    as [H|(_ & _ & nxt & Hnxt & Harr)]; [exact H|].
  rewrite Forall_lookup in Hno. rewrite (Hno _ _ Hnxt) in Harr.
  discriminate.
Qed.

Lemma encode_args_loop_without_arrays method_inputs call_args last_index :
  Forall (fun t => has_array_type t = false) method_inputs ->
  last_index < Z.of_nat (length method_inputs) ->
  forall (args : list value) (sig : list ABIType) (st : encoder_state),
    Forall (fun t => has_array_type t = false) sig ->
    pre_encoded_args <$>
      encode_args_loop method_inputs call_args last_index (zip args sig) st
    = (fun l => st.(pre_encoded_args) ++ l) <$>
        mapM _pre_encode_value (take (length sig) args).
Proof.
  intros Hno Hlast.
  induction args as [|a args IH]; intros sig st Hsig.
  - rewrite take_nil. cbn. rewrite app_nil_r. reflexivity.
  - destruct sig as [|t sig].
    + cbn. rewrite app_nil_r. reflexivity.
    + inversion Hsig as [|? ? Ht Hsig']; subst.
      cbn [zip_with encode_args_loop length take]. rewrite mapM_cons.
      unfold encode_arg. unfold has_array_type in Ht. rewrite Ht.
      rewrite is_arr_len_without_arrays by assumption.
      cbn [mbind result_bind].
      destruct (_pre_encode_value a) as [x|e]; [|reflexivity].
      cbn [mbind result_bind mret result_ret]. rewrite IH by assumption.
      cbn [pre_encoded_args].
      destruct (mapM _pre_encode_value (take (length sig) args)) as [k|];
        [|reflexivity].
      cbn. rewrite <- app_assoc. reflexivity.
Qed.

(** X8: when no input has an array type, the pre-encoded list is the
    argument-wise pre-encoding, in order, of the arguments that have an
    input; a name that ends in [_len] changes nothing then, and the first
    argument that fails decides the exception. *)
Theorem pre_encode_args_without_arrays :
  forall (method_inputs : list ABIType) (call_args : list value),
    Forall (fun t => endswith t.(type) "*" = false) method_inputs ->
    pre_encode_args method_inputs call_args
    = mapM _pre_encode_value (take (length method_inputs) call_args).
Proof.
  intros method_inputs call_args Hno. unfold pre_encode_args.
  rewrite encode_args_loop_without_arrays; try assumption; [|lia].
  cbn [pre_encoded_args].
  destruct (mapM _pre_encode_value _); reflexivity.
Qed.

Lemma pre_encode_args_without_arrays_witness :
  pre_encode_args [Examples.field "amount_len" "felt"; Examples.field "to" "felt"]
    [VStr "0x10"; VHexBytes [Byte.x01]; VInt 9]
  = mapM _pre_encode_value
      (take 2 [VStr "0x10"; VHexBytes [Byte.x01]; VInt 9]).
Proof.
  apply (pre_encode_args_without_arrays
           [Examples.field "amount_len" "felt"; Examples.field "to" "felt"]).
  repeat constructor.
Defined.

(** * Further properties of the decoders *)

Lemma entries_elements_cons t ts e es :
  entries_elements (t :: ts) (e :: es)
  = entry_elements t e ++ entries_elements ts es.
Proof. reflexivity. Qed.

(** The walk of [decode_items], with what it appends and what it leaves. *)
Lemma decode_items_loop_Ok abi_types : forall decoded data decoded' rest,
  decode_items_loop abi_types decoded data = Ok (decoded', rest) ->
  exists entries,
    decoded' = decoded ++ entries /\
    length entries = length abi_types /\
    entries_elements abi_types entries = take (required_items abi_types) data /\
    rest = drop (required_items abi_types) data.
Proof.
  induction abi_types as [|t ts IH]; intros decoded data decoded' rest H.
  - inversion H; subst. exists []. rewrite app_nil_r. auto.
  - cbn [decode_items_loop] in H. rewrite iter_bind_eq in H.
    unfold decode_item in H. cbn [required_items].
    destruct (String.eqb t.(type) "Uint256") eqn:Ht.
    + destruct data as [|low [|high data]]; try discriminate.
      change (decode_items_loop ts (decoded ++ [VTuple [low; high]]) data
              = Ok (decoded', rest)) in H.
      apply IH in H as (entries & -> & Hlen & Hel & ->).
      exists (VTuple [low; high] :: entries). rewrite <- app_assoc.
      split; [reflexivity|]. split; [cbn; lia|]. split; [|reflexivity].
      rewrite entries_elements_cons, Hel. unfold entry_elements.
      rewrite Ht. reflexivity.
    + destruct data as [|x data]; try discriminate.
      change (decode_items_loop ts (decoded ++ [x]) data
              = Ok (decoded', rest)) in H.
      apply IH in H as (entries & -> & Hlen & Hel & ->).
      exists (x :: entries). rewrite <- app_assoc.
      split; [reflexivity|]. split; [cbn; lia|]. split; [|reflexivity].
      rewrite entries_elements_cons, Hel. unfold entry_elements.
      rewrite Ht. reflexivity.
Qed.

Lemma decode_items_loop_surplus abi_types surplus :
  forall decoded data decoded' rest,
    decode_items_loop abi_types decoded data = Ok (decoded', rest) ->
    decode_items_loop abi_types decoded (data ++ surplus)
    = Ok (decoded', rest ++ surplus).
Proof.
  induction abi_types as [|t ts IH]; intros decoded data decoded' rest H.
  - inversion H; subst. reflexivity.
  - cbn [decode_items_loop] in *. rewrite iter_bind_eq in *.
    unfold decode_item in *.
    destruct (String.eqb t.(type) "Uint256").
    + destruct data as [|low [|high data]]; try discriminate.
      apply (IH (decoded ++ [VTuple [low; high]]) data). exact H.
    + destruct data as [|x data]; try discriminate.
      apply (IH (decoded ++ [x]) data). exact H.
Qed.

(** X9: what [decode_items] returns has one entry per field of the
    signature, and the entries hold, in order and without loss, exactly the
    first elements of the data the signature requires (a wide integer its
    two); elements beyond them are never read, so data with a surplus
    decodes to the same entries. *)
Theorem decode_items_keeps_elements :
  forall (abi_types : list ABIType) (data decoded : list value),
    decode_items abi_types data = Ok decoded ->
    length decoded = length abi_types /\
    entries_elements abi_types decoded = take (required_items abi_types) data /\
    (forall surplus, decode_items abi_types (data ++ surplus) = Ok decoded).
Proof.
  intros abi_types data decoded H. unfold decode_items in H.
  apply fmap_Ok_inv in H as ([d rest] & Hloop & ->). cbn [fst].
  pose proof (decode_items_loop_Ok _ _ _ _ _ Hloop)
    as (entries & -> & Hlen & Hel & _).
  cbn [app]. split; [assumption|]. split; [assumption|].
  intros surplus. unfold decode_items.
  rewrite (decode_items_loop_surplus _ surplus _ _ _ _ Hloop). reflexivity.
Qed.

Lemma decode_items_keeps_elements_witness :
  entries_elements Examples.scalar_wide [VInt 5; VTuple [VInt 42; VInt 1]]
  = take (required_items Examples.scalar_wide) (Examples.ints [5; 42; 1; 9]).
Proof.
  apply (proj1 (proj2 (decode_items_keeps_elements Examples.scalar_wide
                         (Examples.ints [5; 42; 1; 9])
                         [VInt 5; VTuple [VInt 42; VInt 1]] eq_refl))).
Defined.

Lemma decode_items_raises_StopIteration abi_types data e :
  decode_items abi_types data = Raise e ->
  e = StopIteration /\ (length data < required_items abi_types)%nat.
Proof.
  unfold decode_items. intros H. apply fmap_Raise_inv in H.
  destruct (Nat.le_gt_cases (required_items abi_types) (length data))
    as [Hle|Hgt].
  - destruct (decode_items_loop_enough abi_types [] data Hle) as [d Hd].
    rewrite Hd in H. discriminate.
  - rewrite (decode_items_loop_short abi_types [] data Hgt) in H.
    inversion H. auto.
Qed.

Lemma yield_logs_cons_Ok abi index log logs decoded :
  decode_items abi.(event_inputs) log.(data) = Ok decoded ->
  yield_logs abi index (log :: logs)
  = (log_of abi index log decoded :: (yield_logs abi (S index) logs).1,
     (yield_logs abi (S index) logs).2).
Proof.
  intros H. cbn [yield_logs]. rewrite H.
  destruct (yield_logs abi (S index) logs). reflexivity.
Qed.

Lemma yield_logs_cons_Raise abi index log logs e :
  decode_items abi.(event_inputs) log.(data) = Raise e ->
  yield_logs abi index (log :: logs) = ([], Some (generator_exit e)).
Proof. intros H. cbn [yield_logs]. rewrite H. reflexivity. Qed.

Lemma yield_logs_yielded abi : forall matching index i log,
  (yield_logs abi index matching).1 !! i = Some log ->
  exists raw decoded,
    matching !! i = Some raw /\
    decode_items abi.(event_inputs) raw.(data) = Ok decoded /\
    log = log_of abi (index + i) raw decoded.
Proof.
  induction matching as [|raw matching IH]; intros index i log H;
    [discriminate|].
  destruct (decode_items abi.(event_inputs) raw.(data)) as [decoded|e] eqn:Hd.
  - rewrite (yield_logs_cons_Ok _ _ _ _ _ Hd) in H. cbn [fst] in H.
    destruct i as [|i].
    + inversion H; subst. exists raw, decoded. rewrite Nat.add_0_r. auto.
    + apply IH in H as (raw' & decoded' & Hraw & Hdec & ->).
      exists raw', decoded'.
      replace (index + S i)%nat with (S index + i)%nat by lia. auto.
  - rewrite (yield_logs_cons_Raise _ _ _ _ _ Hd) in H. discriminate.
Qed.

Lemma yield_logs_stop abi : forall matching index,
  match (yield_logs abi index matching).2 with
  | None =>
      length (yield_logs abi index matching).1 = length matching /\
      Forall (fun raw => (required_items abi.(event_inputs)
                          <= length raw.(data))%nat) matching
  | Some e =>
      e = RuntimeError /\
      exists bad,
        matching !! length (yield_logs abi index matching).1 = Some bad /\
        (length bad.(data) < required_items abi.(event_inputs))%nat
  end.
Proof.
  induction matching as [|raw matching IH]; intros index.
  - cbn. auto.
  - destruct (decode_items abi.(event_inputs) raw.(data)) as [decoded|e] eqn:Hd.
    + rewrite (yield_logs_cons_Ok _ _ _ _ _ Hd). cbn [fst snd length].
      specialize (IH (S index)).
      destruct (yield_logs abi (S index) matching).2 as [e|].
      * exact IH.
      * destruct IH as [Hlen Hall]. split; [congruence|].
        constructor; [|exact Hall].
        destruct (Nat.le_gt_cases (required_items abi.(event_inputs))
                    (length raw.(data))) as [Hle|Hgt]; [exact Hle|].
        unfold decode_items in Hd.
        rewrite (decode_items_loop_short _ [] _ Hgt) in Hd. discriminate.
    + rewrite (yield_logs_cons_Raise _ _ _ _ _ Hd). cbn [fst snd length].
      apply decode_items_raises_StopIteration in Hd as [-> Hshort].
      split; [reflexivity|]. exists raw. auto.
Qed.

(** X10: every log [decode_logs] yields comes from a raw log that carries
    the selector of the event: the log yielded at place [i] is made from the
    [i]-th such raw log in input order, bears the index [i] (counted among
    the matching logs, not among all raw logs) and the name of the event,
    passes the transaction and block fields on, and maps the input names to
    the items decoded from the data of that raw log. *)
Theorem decode_logs_yields_matching_logs :
  forall (get_selector_from_name : string -> Z) (abi : EventABI)
         (raw_logs : list RawLog) (i : nat) (log : ContractLog),
    (decode_logs get_selector_from_name abi raw_logs).1 !! i = Some log ->
    exists raw decoded,
      List.filter (is_matching_log get_selector_from_name abi) raw_logs !! i
      = Some raw /\
      In (get_selector_from_name abi.(event_name)) raw.(keys) /\
      decode_items abi.(event_inputs) raw.(data) = Ok decoded /\
      log = log_of abi i raw decoded.
Proof.
  intros selector abi raw_logs i log H. unfold decode_logs in H.
  apply yield_logs_yielded in H as (raw & decoded & Hraw & Hdec & ->).
  exists raw, decoded. split; [exact Hraw|]. split; [|auto].
  apply list_elem_of_lookup_2, list_elem_of_In in Hraw.
  apply filter_In in Hraw as [_ Hm]. unfold is_matching_log in Hm.
  apply existsb_exists in Hm as (k & Hk & E).
  apply Z.eqb_eq in E. subst k. exact Hk.
Qed.

Lemma decode_logs_yields_matching_logs_witness :
  exists raw decoded,
    List.filter (is_matching_log (fun _ => 11) (Examples.Transfer Examples.wide))
      [Examples.raw_log [3] []; Examples.raw_log [11] [10; 0]] !! 0%nat
    = Some raw /\
    In 11 raw.(keys) /\
    decode_items Examples.wide raw.(data) = Ok decoded /\
    log_of (Examples.Transfer Examples.wide) 0
      (Examples.raw_log [11] [10; 0]) [VTuple [VInt 10; VInt 0]]
    = log_of (Examples.Transfer Examples.wide) 0 raw decoded.
Proof.
  apply (decode_logs_yields_matching_logs (fun _ => 11)
           (Examples.Transfer Examples.wide)
           [Examples.raw_log [3] []; Examples.raw_log [11] [10; 0]] 0).
  reflexivity.
Defined.

(** X11: how the generator ends.  It ends normally exactly when every raw
    log that carries the selector has the data the signature requires, and
    then it has yielded one log for each of them; otherwise it ends with
    [RuntimeError] at the first matching log whose data is too short, after
    the logs before it, and the matching logs after it are never decoded. *)
Theorem decode_logs_end :
  forall (get_selector_from_name : string -> Z) (abi : EventABI)
         (raw_logs : list RawLog),
    let matching :=
      List.filter (is_matching_log get_selector_from_name abi) raw_logs in
    let yielded := (decode_logs get_selector_from_name abi raw_logs).1 in
    match (decode_logs get_selector_from_name abi raw_logs).2 with
    | None =>
        length yielded = length matching /\
        Forall (fun raw => (required_items abi.(event_inputs)
                            <= length raw.(data))%nat) matching
    | Some e =>
        e = RuntimeError /\
        exists bad,
          matching !! length yielded = Some bad /\
          (length bad.(data) < required_items abi.(event_inputs))%nat
    end.
Proof.
  intros selector abi raw_logs matching yielded.
  apply (yield_logs_stop abi matching 0).
Qed.

Lemma mapM_app {A B : Type} (f : A -> result B) (l k : list A) :
  mapM f (l ++ k) = (x ← mapM f l; y ← mapM f k; mret (x ++ y)).
Proof.
  induction l as [|a l IH].
  - cbn [app]. rewrite mapM_nil. cbn. destruct (mapM f k); reflexivity.
  - cbn [app]. rewrite !mapM_cons, IH.
    destruct (f a); [|reflexivity]. cbn.
    destruct (mapM f l); [|reflexivity]. cbn.
    destruct (mapM f k); reflexivity.
Qed.

Lemma decode_output_surplus cur nxt decoded it decoded' rest surplus :
  decode_output cur nxt decoded it = Ok (decoded', rest) ->
  decode_output cur nxt decoded (it ++ surplus) = Ok (decoded', rest ++ surplus).
Proof.
  intros H. unfold decode_output in *. destruct cur as [cur|]; [|discriminate].
  destruct (String.eqb cur.(type) "Uint256").
  { destruct it as [|low [|high it]]; try discriminate.
    inversion H; subst. reflexivity. }
  destruct (String.eqb cur.(type) "felt" && next_is_array nxt).
  { destruct it as [|array_len it]; [discriminate|].
    cbn [app]. rewrite iter_bind_eq in *. cbn [next] in *.
    destruct (range_length array_len) as [n|]; [|discriminate].
    rewrite iter_bind_eq, next_n_spec in *. rewrite length_app.
    destruct (Nat.leb_spec n (length it)) as [Hn|Hn]; [|discriminate].
    destruct (Nat.leb_spec n (length it + length surplus)) as [_|Hn'];
      [|lia].
    inversion H; subst. cbn [mret iterM_ret].
    rewrite take_app_le, drop_app_le by assumption. reflexivity. }
  destruct (String.eqb cur.(type) "felt*").
  { inversion H; subst. reflexivity. }
  destruct it as [|x it]; [discriminate|]. inversion H; subst. reflexivity.
Qed.

Lemma decode_outputs_surplus pairs surplus : forall decoded it decoded' rest,
  decode_outputs pairs decoded it = Ok (decoded', rest) ->
  decode_outputs pairs decoded (it ++ surplus) = Ok (decoded', rest ++ surplus).
Proof.
  induction pairs as [|[cur nxt] pairs IH]; intros decoded it decoded' rest H.
  - inversion H; subst. reflexivity.
  - cbn [decode_outputs] in *. rewrite iter_bind_eq in *.
    destruct (decode_output cur nxt decoded it) as [[d it']|] eqn:Hstep;
      [|discriminate].
    rewrite (decode_output_surplus _ _ _ _ _ _ surplus Hstep).
    apply IH. exact H.
Qed.

(** X13: raw elements beyond those the walk consumes are ignored: when raw
    data of at least two elements decodes, the same data followed by a
    surplus decodes to the same value, provided the surplus coerces (every
    raw element is coerced before the walk, read or not). *)
Theorem decode_returndata_ignores_surplus :
  forall (abi : MethodABI) (raw_data surplus coerced : list value) (r : value),
    (2 <= length raw_data)%nat ->
    decode_returndata abi raw_data = Ok r ->
    mapM encode_primitive_value surplus = Ok coerced ->
    decode_returndata abi (raw_data ++ surplus) = Ok r.
Proof.
  intros abi raw_data surplus coerced r Hlen H Hs.
  unfold decode_returndata in *.
  destruct raw_data as [|v raw_data]; [cbn in Hlen; lia|].
  remember ((v :: raw_data) ++ surplus) as all eqn:Eall.
  destruct all as [|w all]; [discriminate|].
  rewrite Eall, mapM_app, Hs.
  destruct (mapM encode_primitive_value (v :: raw_data)) as [raw|] eqn:Hraw;
    [|discriminate].
  cbn [mbind result_bind mret result_ret] in *.
  pose proof (mapM_result_length _ _ _ Hraw) as Hl.
  pose proof (mapM_result_length _ _ _ Hs) as Hl'.
  destruct (Nat.eqb_spec (length raw) 1) as [E|_]; [lia|].
  destruct (Nat.eqb_spec (length (raw ++ coerced)) 1) as [E|_];
    [rewrite length_app in E; lia|].
  destruct (decode_outputs _ [] raw) as [[decoded rest]|] eqn:Hwalk;
    [|discriminate].
  rewrite (decode_outputs_surplus _ coerced _ _ _ _ Hwalk). exact H.
Qed.

Lemma decode_returndata_ignores_surplus_witness :
  decode_returndata (Examples.returns Examples.len_arr)
    (Examples.ints [2; 7; 8] ++ [VStr "0xff"; VNone])
  = Ok (VList [VInt 7; VInt 8]).
Proof.
  apply (decode_returndata_ignores_surplus (Examples.returns Examples.len_arr)
           (Examples.ints [2; 7; 8]) [VStr "0xff"; VNone] [VInt 255; VNone]).
  - cbn. lia.
  - reflexivity.
  - reflexivity.
Defined.

(** X12: a length followed by an array marker decodes to the elements that
    follow the length: for a [felt] output followed by a [felt*] output and integer data [n, x1,
    ...] with at least one and at least [n] elements after the length, the
    result is the list of the first [n] of them; a negative [n] gives the
    empty list. *)
Theorem decode_returndata_array :
  forall (abi : MethodABI) (len_output arr_output : ABIType) (n : Z)
         (xs : list Z),
    abi.(outputs) = [len_output; arr_output] ->
    len_output.(type) = "felt"%string ->
    arr_output.(type) = "felt*"%string ->
    (1 <= length xs)%nat ->
    (Z.to_nat n <= length xs)%nat ->
    decode_returndata abi (VInt <$> n :: xs)
    = Ok (VList (VInt <$> take (Z.to_nat n) xs)).
Proof.
  intros abi o1 o2 n xs Ho H1 H2 Hne Hn. unfold decode_returndata.
  rewrite mapM_ints. cbn [fmap list_fmap mbind result_bind].
  change (list_fmap Z value VInt xs) with (VInt <$> xs).
  destruct xs as [|x xs]; [cbn in Hne; lia|].
  cbn [fmap list_fmap length Nat.eqb].
  change (list_fmap Z value VInt xs) with (VInt <$> xs).
  rewrite Ho. cbn [tail zip_longest fmap list_fmap decode_outputs].
  rewrite iter_bind_eq. unfold decode_output at 1. rewrite H1.
  cbn [next_is_array]. rewrite H2.
  change (String.eqb "felt" "Uint256") with false.
  change (String.eqb "felt" "felt" && String.eqb "felt*" "felt*") with true.
  cbv iota.
  rewrite iter_bind_eq. cbn [next range_length].
  rewrite iter_bind_eq, next_n_spec.
  change (VInt x :: (VInt <$> xs)) with (VInt <$> x :: xs).
  rewrite length_fmap.
  destruct (Nat.leb_spec (Z.to_nat n) (length (x :: xs))) as [_|Hgt];
    [|lia].
  cbn [mret iterM_ret]. rewrite iter_bind_eq.
  rewrite (decode_output_marker o2) by assumption.
  cbn [decode_outputs mret iterM_ret app].
  unfold keep_only_expected. cbn. rewrite H2. cbn.
  rewrite fmap_take. reflexivity.
Qed.

Lemma decode_returndata_array_witness :
  decode_returndata (Examples.returns Examples.len_arr)
    (VInt <$> (-1) :: [7; 8])
  = Ok (VList (VInt <$> take (Z.to_nat (-1)) [7; 8])).
Proof.
  apply (decode_returndata_array (Examples.returns Examples.len_arr)
           (Examples.field "arr_len" "felt") (Examples.field "arr" "felt*"));
    try reflexivity; cbn; lia.
Defined.

Lemma zip_longest_cur_Some {A : Type} (l : list A) : forall k : list A,
  (length k <= length l)%nat ->
  Forall (fun p => is_Some p.1) (zip_longest l k).
Proof.
  induction l as [|x l IH]; intros k Hk.
  - destruct k; [constructor|cbn in Hk; lia].
  - destruct k as [|y k]; cbn [zip_longest]; constructor; cbn; eauto.
    + apply (IH []). cbn. lia.
    + apply IH. cbn in Hk. lia.
Qed.

Lemma decode_output_rest cur nxt decoded it decoded' rest :
  decode_output cur nxt decoded it = Ok (decoded', rest) ->
  exists k, rest = drop k it.
Proof.
  intros H. unfold decode_output in H. destruct cur as [cur|]; [|discriminate].
  destruct (String.eqb cur.(type) "Uint256").
  { destruct it as [|low [|high it]]; try discriminate.
    inversion H; subst. exists 2%nat. reflexivity. }
  destruct (String.eqb cur.(type) "felt" && next_is_array nxt).
  { destruct it as [|array_len it]; [discriminate|].
    rewrite iter_bind_eq in H. cbn [next] in H.
    destruct (range_length array_len) as [n|]; [|discriminate].
    rewrite iter_bind_eq, next_n_spec in H.
    destruct (n <=? length it)%nat; [|discriminate].
    inversion H; subst. exists (S n). reflexivity. }
  destruct (String.eqb cur.(type) "felt*").
  { inversion H; subst. exists 0%nat. reflexivity. }
  destruct it as [|x it]; [discriminate|]. inversion H; subst.
  exists 1%nat. reflexivity.
Qed.

Lemma decode_output_raises cur nxt decoded it e :
  decode_output (Some cur) nxt decoded it = Raise e ->
  e = StopIteration \/
  (e = TypeError /\ exists v, In v it /\ is_int v = false).
Proof.
  intros H. unfold decode_output in H.
  destruct (String.eqb cur.(type) "Uint256").
  { destruct it as [|low [|high it]]; inversion H; auto. }
  destruct (String.eqb cur.(type) "felt" && next_is_array nxt).
  { destruct it as [|array_len it]; [inversion H; auto|].
    rewrite iter_bind_eq in H. cbn [next] in H.
    destruct array_len as [ |n|s|b|b|l|l|d];
      try (inversion H; right; split; [reflexivity|];
           eexists; split; [left; reflexivity|reflexivity]).
    cbn [range_length] in H. rewrite iter_bind_eq, next_n_spec in H.
    destruct (Z.to_nat n <=? length it)%nat; inversion H. auto. }
  destruct (String.eqb cur.(type) "felt*"); [discriminate|].
  destruct it as [|x it]; inversion H; auto.
Qed.

Lemma decode_outputs_raises pairs : forall decoded it e,
  Forall (fun p => is_Some p.1) pairs ->
  decode_outputs pairs decoded it = Raise e ->
  e = StopIteration \/
  (e = TypeError /\ exists v, In v it /\ is_int v = false).
Proof.
  induction pairs as [|[cur nxt] pairs IH]; intros decoded it e Hsome H;
    [discriminate|].
  inversion Hsome as [|? ? [c Hc] Hsome']; subst. cbn in Hc. subst cur.
  cbn [decode_outputs] in H. rewrite iter_bind_eq in H.
  destruct (decode_output (Some c) nxt decoded it) as [[d it']|e'] eqn:Hstep.
  - apply decode_output_rest in Hstep as [k ->].
    destruct (IH _ _ _ Hsome' H) as [Hs|(He & v & Hin & Hv)]; [auto|].
    right. split; [assumption|]. exists v. split; [|assumption].
    apply list_elem_of_In. apply list_elem_of_In in Hin.
    eapply subseteq_drop. exact Hin.
  - inversion H; subst. eapply decode_output_raises. exact Hstep.
Qed.

(** X14: the ways [decode_returndata] fails.  The only exceptions are
    [ValueError] (a raw element that is no base-16 literal), [StopIteration]
    (the walk runs out of elements), [TypeError] (an array length that is no
    integer) and [IndexError] (the unwrap of an empty result); for raw data
    of integers only [StopIteration] and [IndexError] are left. *)
Theorem decode_returndata_exceptions :
  forall (abi : MethodABI) (raw_data : list value) (e : exception),
    decode_returndata abi raw_data = Raise e ->
    (e = ValueError \/ e = StopIteration \/ e = TypeError \/ e = IndexError) /\
    (forallb is_int raw_data = true -> e = StopIteration \/ e = IndexError).
Proof.
  intros abi raw_data e H. unfold decode_returndata in H.
  destruct raw_data as [|v raw_data]; [discriminate|].
  destruct (mapM encode_primitive_value (v :: raw_data)) as [raw|e'] eqn:Hraw.
  - cbn [mbind result_bind] in H.
    pose proof (mapM_result_length _ _ _ Hraw) as Hlen.
    destruct (Nat.eqb_spec (length raw) 1) as [E|_].
    { destruct raw as [|x raw]; [discriminate|]. discriminate. }
    destruct (decode_outputs _ [] raw) as [[decoded rest]|e''] eqn:Hwalk.
    + assert (e = IndexError) as ->.
      { destruct (keep_only_expected _); [|discriminate].
        destruct (decoded !! 0%nat); inversion H. reflexivity. }
      auto.
    + inversion H; subst e''.
      apply decode_outputs_raises in Hwalk;
        [|apply zip_longest_cur_Some; destruct abi.(outputs); cbn; lia].
      destruct Hwalk as [->|(-> & x & Hin & Hx)]; [auto|].
      split; [auto|]. intros Hints. exfalso.
      assert (raw = v :: raw_data) as ->.
      { rewrite mapM_Ok_id in Hraw; [inversion Hraw; reflexivity|].
        rewrite forallb_forall in Hints. rewrite Forall_forall.
        intros y Hy. apply list_elem_of_In, Hints in Hy.
        destruct y; try discriminate. reflexivity. }
      rewrite forallb_forall in Hints. rewrite (Hints _ Hin) in Hx.
      discriminate.
  - cbn in H. inversion H; subst e'.
    apply mapM_Raise_inv, Exists_exists in Hraw as (x & Hin & Hx).
    pose proof (encode_primitive_value_raises_ValueError _ _ Hx) as ->.
    split; [auto|]. intros Hints. exfalso.
    rewrite forallb_forall in Hints. apply list_elem_of_In, Hints in Hin.
    destruct x; discriminate.
Qed.

Lemma decode_returndata_exceptions_witness :
  (TypeError = ValueError \/ TypeError = StopIteration \/
   TypeError = TypeError \/ TypeError = IndexError) /\
  (forallb is_int [VStr "three"; VInt 1; VInt 2] = true ->
   TypeError = StopIteration \/ TypeError = IndexError).
Proof.
  apply (decode_returndata_exceptions (Examples.returns Examples.len_arr)
           [VStr "three"; VInt 1; VInt 2]).
  reflexivity.
Defined.

(** ** Wide integers *)

Lemma required_items_app l k :
  required_items (l ++ k) = (required_items l + required_items k)%nat.
Proof.
  induction l as [|t l IH]; [reflexivity|].
  cbn [app required_items]. rewrite IH. lia.
Qed.

Lemma decode_items_loop_app l k : forall decoded data,
  decode_items_loop (l ++ k) decoded data
  = match decode_items_loop l decoded data with
    | Ok (decoded', rest) => decode_items_loop k decoded' rest
    | Raise e => Raise e
    end.
Proof.
  induction l as [|t l IH]; intros decoded data; [reflexivity|].
  cbn [app decode_items_loop]. rewrite !iter_bind_eq.
  destruct (decode_item t decoded data) as [[d it]|]; [apply IH|reflexivity].
Qed.

(** The entry of the field at [i]: the walk reaches it with the elements the
    fields before it require consumed, and appends the next two elements as
    a pair when the field is a wide integer, the next element otherwise. *)
Lemma decode_items_loop_entry abi_types data decoded rest i t :
  decode_items_loop abi_types [] data = Ok (decoded, rest) ->
  abi_types !! i = Some t ->
  exists before after,
    decode_items_loop (take i abi_types) [] data
    = Ok (before, drop (required_items (take i abi_types)) data) /\
    length before = i /\
    decode_item t before (drop (required_items (take i abi_types)) data)
    = Ok (before ++ after, drop (required_items (take (S i) abi_types)) data) /\
    exists more, decoded = before ++ after ++ more.
Proof.
  intros H Hi.
  pose proof (take_drop_middle _ _ _ Hi) as Hsplit.
  rewrite <- Hsplit in H. rewrite decode_items_loop_app in H.
  destruct (decode_items_loop (take i abi_types) [] data) as [[before it]|]
    eqn:Hpre; [|discriminate].
  pose proof (decode_items_loop_Ok _ _ _ _ _ Hpre)
    as (entries & Hb & Hlen & _ & Hit).
  cbn [app] in Hb. subst entries it.
  cbn [decode_items_loop] in H. rewrite iter_bind_eq in H.
  destruct (decode_item t before _) as [[d it]|] eqn:Hstep; [|discriminate].
  pose proof (decode_items_loop_Ok _ _ _ _ _ H) as (more & -> & _ & _ & _).
  pose proof (decode_items_loop_Ok [t] before
                (drop (required_items (take i abi_types)) data) d it) as Hone.
  cbn [decode_items_loop] in Hone. rewrite iter_bind_eq, Hstep in Hone.
  destruct (Hone eq_refl) as (after & -> & _ & _ & ->).
  exists before, after. split; [reflexivity|].
  split.
  { rewrite Hlen, length_take. apply lookup_lt_Some in Hi. lia. }
  split.
  { rewrite Hstep, drop_drop. f_equal. f_equal. f_equal.
    rewrite (take_S_r _ _ _ Hi), required_items_app. reflexivity. }
  exists more. rewrite app_assoc. reflexivity.
Qed.

Lemma decode_outputs_app l k : forall decoded it,
  decode_outputs (l ++ k) decoded it
  = match decode_outputs l decoded it with
    | Ok (decoded', rest) => decode_outputs k decoded' rest
    | Raise e => Raise e
    end.
Proof.
  induction l as [|[cur nxt] l IH]; intros decoded it; [reflexivity|].
  cbn [app decode_outputs]. rewrite !iter_bind_eq.
  destruct (decode_output cur nxt decoded it) as [[d it']|];
    [apply IH|reflexivity].
Qed.

Lemma zip_longest_fst {A : Type} (l : list A) : forall k : list A,
  (length k <= length l)%nat ->
  (zip_longest l k).*1 = Some <$> l.
Proof.
  induction l as [|x l IH]; intros k Hk.
  - destruct k; [reflexivity|cbn in Hk; lia].
  - destruct k as [|y k]; cbn [zip_longest fmap list_fmap fst]; f_equal.
    + apply (IH []). cbn. lia.
    + apply IH. cbn in Hk. lia.
Qed.

Lemma outputs_pairs_fst (outs : list ABIType) :
  (zip_longest outs (tail outs)).*1 = Some <$> outs.
Proof. apply zip_longest_fst. destruct outs; cbn; lia. Qed.

(** The walk of [decode_returndata] over integer data: what it leaves of the
    data and how many entries it appends, one per output that is no array
    marker. *)
Lemma decode_outputs_ints pairs : forall curs decoded ns decoded' rest,
  pairs.*1 = Some <$> curs ->
  decode_outputs pairs decoded (VInt <$> ns) = Ok (decoded', rest) ->
  rest = VInt <$> drop (required_outputs pairs ns) ns /\
  exists entries,
    decoded' = decoded ++ entries /\
    length entries
    = length (List.filter (fun t => negb (String.eqb t.(type) "felt*")) curs).
Proof.
  induction pairs as [|[cur nxt] pairs IH];
    intros curs decoded ns decoded' rest Hc H.
  - destruct curs; [|discriminate]. inversion H; subst.
    split; [reflexivity|]. exists []. rewrite app_nil_r. auto.
  - destruct curs as [|c curs]; [discriminate|].
    cbn [fmap list_fmap fst] in Hc. inversion Hc as [[E Hc']]. subst cur.
    cbn [decode_outputs] in H. rewrite iter_bind_eq in H.
    cbn [required_outputs].
    cbn [List.filter]. unfold decode_output in H.
    destruct (String.eqb_spec c.(type) "Uint256") as [Hw|_].
    { rewrite Hw. cbn [String.eqb Ascii.eqb Bool.eqb negb].
      destruct ns as [|low [|high ns]]; try discriminate.
      change (decode_outputs pairs (decoded ++ [VTuple [VInt low; VInt high]])
                (VInt <$> ns) = Ok (decoded', rest)) in H.
      destruct (IH curs _ _ _ _ Hc' H) as (-> & entries & -> & Hlen).
      split; [reflexivity|]. exists (VTuple [VInt low; VInt high] :: entries).
      rewrite <- app_assoc. split; [reflexivity|]. cbn. lia. }
    destruct (String.eqb c.(type) "felt" && next_is_array nxt) eqn:Ha.
    { apply andb_prop in Ha as [Hf _]. apply String.eqb_eq in Hf.
      rewrite Hf. cbn [String.eqb Ascii.eqb Bool.eqb negb].
      destruct ns as [|n ns]; [discriminate|].
      cbn [fmap list_fmap] in H. rewrite iter_bind_eq in H.
      cbn [next range_length] in H.
      rewrite iter_bind_eq, next_n_spec, length_fmap in H.
      destruct (Nat.leb_spec (Z.to_nat n) (length ns)) as [Hn|Hn];
        [|discriminate].
      cbn [mret iterM_ret] in H. rewrite <- fmap_drop in H.
      destruct (IH curs _ _ _ _ Hc' H) as (-> & entries & -> & Hlen).
      split.
      { rewrite drop_drop. f_equal. }
      eexists (_ :: entries).
      rewrite <- app_assoc. split; [reflexivity|]. cbn. lia. }
    destruct (String.eqb c.(type) "felt*").
    { cbn [negb]. cbn [mret iterM_ret] in H.
      destruct (IH curs _ _ _ _ Hc' H) as (-> & entries & -> & Hlen).
      split; [reflexivity|]. exists entries. auto. }
    cbn [negb]. destruct ns as [|x ns]; [discriminate|].
    change (decode_outputs pairs (decoded ++ [VInt x]) (VInt <$> ns)
            = Ok (decoded', rest)) in H.
    destruct (IH curs _ _ _ _ Hc' H) as (-> & entries & -> & Hlen).
    split; [reflexivity|]. exists (VInt x :: entries).
    rewrite <- app_assoc. split; [reflexivity|]. cbn. lia.
Qed.

(** The round of the walk of [decode_returndata] for a wide integer among
    the outputs, over integer data. *)
Lemma decode_outputs_wide outs ns decoded rest i t :
  decode_outputs (zip_longest outs (tail outs)) [] (VInt <$> ns)
  = Ok (decoded, rest) ->
  outs !! i = Some t ->
  t.(type) = "Uint256"%string ->
  exists low high before,
    ns !! required_outputs (take i (zip_longest outs (tail outs))) ns
    = Some low /\
    ns !! S (required_outputs (take i (zip_longest outs (tail outs))) ns)
    = Some high /\
    decode_outputs (take i (zip_longest outs (tail outs))) [] (VInt <$> ns)
    = Ok (before,
          VInt <$> drop (required_outputs
                           (take i (zip_longest outs (tail outs))) ns) ns) /\
    length before = entries_before outs i /\
    decode_outputs (take (S i) (zip_longest outs (tail outs))) []
      (VInt <$> ns)
    = Ok (before ++ [VTuple [VInt low; VInt high]],
          VInt <$> drop (required_outputs
                           (take i (zip_longest outs (tail outs))) ns + 2)
                     ns) /\
    decoded !! length before = Some (VTuple [VInt low; VInt high]).
Proof.
  set (pairs := zip_longest outs (tail outs)).
  intros H Hi Ht.
  assert (Hfst : pairs.*1 = Some <$> outs) by apply outputs_pairs_fst.
  assert (exists nxt, pairs !! i = Some (Some t, nxt)) as [nxt Hp].
  { pose proof (f_equal (fun l => l !! i) Hfst) as E. cbn beta in E.
    rewrite !list_lookup_fmap, Hi in E.
    destruct (pairs !! i) as [[c nxt]|]; [|discriminate].
    cbn in E. inversion E; subst. eauto. }
  pose proof (take_drop_middle _ _ _ Hp) as Hsplit.
  rewrite <- Hsplit in H. rewrite decode_outputs_app in H.
  destruct (decode_outputs (take i pairs) [] (VInt <$> ns))
    as [[before it]|] eqn:Hpre; [|discriminate].
  assert (Hfst_pre : (take i pairs).*1 = Some <$> take i outs).
  { rewrite !fmap_take, Hfst. reflexivity. }
  destruct (decode_outputs_ints _ _ _ _ _ _ Hfst_pre Hpre)
    as (-> & entries & Hb & Hlen).
  cbn [app] in Hb. subst entries.
  remember (required_outputs (take i pairs) ns) as k eqn:Hk.
  cbn [decode_outputs] in H. rewrite iter_bind_eq in H.
  unfold decode_output in H. rewrite Ht in H.
  cbn [String.eqb Ascii.eqb Bool.eqb] in H.
  destruct (drop k ns) as [|low [|high after]] eqn:Hdrop; try discriminate.
  change (decode_outputs (drop (S i) pairs)
            (before ++ [VTuple [VInt low; VInt high]]) (VInt <$> after)
          = Ok (decoded, rest)) in H.
  assert (Hfst_post : (drop (S i) pairs).*1 = Some <$> drop (S i) outs).
  { rewrite !fmap_drop, Hfst. reflexivity. }
  destruct (decode_outputs_ints _ _ _ _ _ _ Hfst_post H)
    as (_ & more & -> & _).
  exists low, high, before.
  pose proof (lookup_drop ns k 0) as H0.
  pose proof (lookup_drop ns k 1) as H1.
  rewrite Hdrop in H0, H1. cbn in H0, H1.
  rewrite Nat.add_0_r in H0. rewrite Nat.add_1_r in H1.
  split; [symmetry; exact H0|]. split; [symmetry; exact H1|].
  split; [reflexivity|]. split; [exact Hlen|]. split.
  - rewrite (take_S_r _ _ _ Hp), decode_outputs_app, Hpre.
    cbn [decode_outputs]. rewrite iter_bind_eq.
    unfold decode_output. rewrite Ht.
    cbn [String.eqb Ascii.eqb Bool.eqb].
    cbn. do 3 f_equal.
    rewrite <- drop_drop, Hdrop. reflexivity.
  - rewrite <- app_assoc, lookup_app_r by lia.
    rewrite Nat.sub_diag. reflexivity.
Qed.

Lemma entries_before_unwrapped outs i t :
  keep_only_expected outs = true ->
  outs !! i = Some t ->
  t.(type) = "Uint256"%string ->
  entries_before outs i = 0%nat.
Proof.
  intros Hk Hi Ht. unfold keep_only_expected in Hk.
  assert (i = 0%nat) as ->; [|reflexivity].
  destruct outs as [|a [|b [|c outs]]]; try discriminate.
  - destruct i; [reflexivity|discriminate].
  - cbn in Hk. destruct i as [|[|i]]; [reflexivity| |discriminate].
    cbn in Hi. inversion Hi; subst. rewrite Ht in Hk. discriminate.
Qed.

(** C2, as the code has it.  In [decode_items] every field is read where
    the fields before it end, a wide integer taking exactly the next two
    elements as the pair (low, high) and any other field exactly one; the
    call raises [StopIteration] when fewer than two elements are left for a
    wide integer.  In [decode_returndata], over at least two raw elements
    that coerce to integers, the walk reaches a wide integer among the
    outputs with the elements of the outputs before it consumed, takes
    exactly the next two as the pair (low, high) and leaves the iterator two
    elements further; the pair is the result itself when the final unwrap
    applies and the entry of the result after those of the outputs before it
    otherwise; the call raises [StopIteration] when fewer than two elements
    are left.  Raw data of exactly one element never reaches the walk.  The
    two examples of the spec, in both decoders and in the arguments of a
    decoded log. *)
Theorem wide_integer_takes_two_elements :
  (forall (abi_types : list ABIType) (data decoded : list value)
          (i : nat) (t : ABIType),
     decode_items abi_types data = Ok decoded ->
     abi_types !! i = Some t ->
     if String.eqb t.(type) "Uint256" then
       exists low high,
         data !! required_items (take i abi_types) = Some low /\
         data !! S (required_items (take i abi_types)) = Some high /\
         decoded !! i = Some (VTuple [low; high]) /\
         required_items (take (S i) abi_types)
         = (required_items (take i abi_types) + 2)%nat
     else
       exists x,
         data !! required_items (take i abi_types) = Some x /\
         decoded !! i = Some x /\
         required_items (take (S i) abi_types)
         = (required_items (take i abi_types) + 1)%nat) /\
  (forall (abi_types : list ABIType) (data : list value)
          (i : nat) (t : ABIType),
     abi_types !! i = Some t ->
     t.(type) = "Uint256"%string ->
     (length data < required_items (take i abi_types) + 2)%nat ->
     decode_items abi_types data = Raise StopIteration) /\
  (forall (abi : MethodABI) (raw_data : list value) (ns : list Z)
          (i : nat) (t : ABIType),
     mapM encode_primitive_value raw_data = Ok (VInt <$> ns) ->
     (2 <= length ns)%nat ->
     abi.(outputs) !! i = Some t ->
     t.(type) = "Uint256"%string ->
     let pairs := zip_longest abi.(outputs) (tail abi.(outputs)) in
     let k := required_outputs (take i pairs) ns in
     (forall r, decode_returndata abi raw_data = Ok r ->
        exists low high before,
          ns !! k = Some low /\
          ns !! S k = Some high /\
          decode_outputs (take i pairs) [] (VInt <$> ns)
          = Ok (before, VInt <$> drop k ns) /\
          length before = entries_before abi.(outputs) i /\
          decode_outputs (take (S i) pairs) [] (VInt <$> ns)
          = Ok (before ++ [VTuple [VInt low; VInt high]],
                VInt <$> drop (k + 2) ns) /\
          if keep_only_expected abi.(outputs)
          then r = VTuple [VInt low; VInt high]
          else exists decoded,
                 r = VList decoded /\
                 decoded !! entries_before abi.(outputs) i
                 = Some (VTuple [VInt low; VInt high])) /\
     ((length ns < k + 2)%nat ->
      decode_returndata abi raw_data = Raise StopIteration)) /\
  decode_returndata (Examples.returns Examples.wide) (Examples.ints [10; 0])
  = Ok (VTuple [VInt 10; VInt 0]) /\
  decode_items Examples.wide (Examples.ints [10; 0])
  = Ok [VTuple [VInt 10; VInt 0]] /\
  decode_returndata (Examples.returns Examples.scalar_wide)
    (Examples.ints [5; 42; 1])
  = Ok (VList [VInt 5; VTuple [VInt 42; VInt 1]]) /\
  decode_items Examples.scalar_wide (Examples.ints [5; 42; 1])
  = Ok [VInt 5; VTuple [VInt 42; VInt 1]] /\
  (forall selector,
     (decode_logs selector (Examples.Transfer Examples.scalar_wide)
        [Examples.raw_log [selector "Transfer"%string] [5; 42; 1]]).1
     = [{| log_name := "Transfer"; log_index := 0;
           event_arguments :=
             [(Some "a"%string, VInt 5);
              (Some "b"%string, VTuple [VInt 42; VInt 1])];
           log_transaction_hash := VStr "0x1";
           log_block_hash := VStr "0x2";
           log_block_number := VInt 1 |}]).
Proof.
  assert (Hitems : forall abi_types data decoded i t,
    decode_items abi_types data = Ok decoded ->
    abi_types !! i = Some t ->
    if String.eqb t.(type) "Uint256" then
      exists low high,
        data !! required_items (take i abi_types) = Some low /\
        data !! S (required_items (take i abi_types)) = Some high /\
        decoded !! i = Some (VTuple [low; high]) /\
        required_items (take (S i) abi_types)
        = (required_items (take i abi_types) + 2)%nat
    else
      exists x,
        data !! required_items (take i abi_types) = Some x /\
        decoded !! i = Some x /\
        required_items (take (S i) abi_types)
        = (required_items (take i abi_types) + 1)%nat).
  { intros abi_types data decoded i t H Hi. unfold decode_items in H.
    apply fmap_Ok_inv in H as ([d rest] & Hloop & ->). cbn [fst].
    destruct (decode_items_loop_entry _ _ _ _ _ _ Hloop Hi)
      as (before & after & _ & Hlen & Hstep & more & ->).
    rewrite (take_S_r _ _ _ Hi), required_items_app in *.
    cbn [required_items] in *. unfold decode_item in Hstep.
    remember (required_items (take i abi_types)) as k eqn:Hk.
    pose proof (lookup_drop data k 0) as H0.
    pose proof (lookup_drop data k 1) as H1.
    rewrite Nat.add_0_r in H0. rewrite Nat.add_1_r in H1.
    destruct (String.eqb t.(type) "Uint256").
    - destruct (drop k data) as [|low [|high it]]; try discriminate.
      inversion Hstep as [[Ha Hit]]. apply app_inv_head in Ha. subst after.
      exists low, high. cbn in H0, H1.
      split; [symmetry; exact H0|]. split; [symmetry; exact H1|].
      split; [|lia].
      rewrite lookup_app_r by lia.
      replace (i - length before)%nat with 0%nat by lia. reflexivity.
    - destruct (drop k data) as [|x it]; try discriminate.
      inversion Hstep as [[Ha Hit]]. apply app_inv_head in Ha. subst after.
      exists x. cbn in H0.
      split; [symmetry; exact H0|].
      split; [|lia].
      rewrite lookup_app_r by lia.
      replace (i - length before)%nat with 0%nat by lia. reflexivity. }
  split; [exact Hitems|]. split; [|split].
  - intros abi_types data i t Hi Ht Hshort.
    destruct (decode_items abi_types data) as [decoded|e] eqn:H.
    + pose proof (Hitems _ _ _ _ _ H Hi) as Hentry.
      rewrite Ht in Hentry. cbn [String.eqb Ascii.eqb Bool.eqb] in Hentry.
      destruct Hentry as (low & high & _ & Hhigh & _).
      apply lookup_lt_Some in Hhigh. lia.
    + apply decode_items_raises_StopIteration in H as [-> _]. reflexivity.
  - intros abi raw_data ns i t Hraw Hlen Hi Ht pairs k.
    assert (Hmore : (1 < length raw_data)%nat).
    { apply mapM_result_length in Hraw. rewrite length_fmap in Hraw. lia. }
    split.
    + intros r Hr.
      destruct (decode_outputs pairs [] (VInt <$> ns)) as [[decoded rest]|e]
        eqn:Hwalk.
      2:{ unfold decode_returndata in Hr.
          destruct raw_data as [|v raw_data]; [cbn in Hmore; lia|].
          rewrite Hraw in Hr. cbn [mbind result_bind] in Hr.
          rewrite length_fmap in Hr.
          destruct (Nat.eqb_spec (length ns) 1) as [E|_]; [lia|].
          fold pairs in Hr. rewrite Hwalk in Hr. discriminate. }
      rewrite (decode_returndata_after_walk _ _ _ _ _ Hmore Hraw Hwalk) in Hr.
      destruct (decode_outputs_wide _ _ _ _ _ _ Hwalk Hi Ht)
        as (low & high & before & Hlow & Hhigh & Hpre & Hb & Hpost & Hd).
      exists low, high, before.
      repeat (split; [assumption|]).
      destruct (keep_only_expected abi.(outputs)) eqn:Hkeep.
      * rewrite Hb, (entries_before_unwrapped _ _ _ Hkeep Hi Ht) in Hd.
        rewrite Hd in Hr. inversion Hr. reflexivity.
      * inversion Hr; subst r. exists decoded. rewrite <- Hb. auto.
    + intros Hshort.
      destruct (decode_outputs pairs [] (VInt <$> ns)) as [[decoded rest]|e]
        eqn:Hwalk.
      { destruct (decode_outputs_wide _ _ _ _ _ _ Hwalk Hi Ht)
          as (low & high & before & _ & Hhigh & _).
        apply lookup_lt_Some in Hhigh. fold pairs k in Hhigh. lia. }
      assert (e = StopIteration) as ->.
      { destruct (decode_outputs_raises pairs [] (VInt <$> ns) e)
          as [He|(_ & v & Hin & Hv)]; [| exact Hwalk | exact He |].
        - apply zip_longest_cur_Some. destruct abi.(outputs); cbn; lia.
        - apply list_elem_of_In, list_elem_of_fmap in Hin as (n & -> & _).
          discriminate. }
      unfold decode_returndata.
      destruct raw_data as [|v raw_data]; [cbn in Hmore; lia|].
      rewrite Hraw. cbn [mbind result_bind]. rewrite length_fmap.
      destruct (Nat.eqb_spec (length ns) 1) as [E|_]; [lia|].
      fold pairs. rewrite Hwalk. reflexivity.
  - repeat (split; [reflexivity|]).
    intros selector. unfold decode_logs, Examples.raw_log.
    cbn [List.filter is_matching_log keys existsb Examples.Transfer
         event_name].
    rewrite Z.eqb_refl. reflexivity.
Qed.

Lemma wide_integer_takes_two_elements_witness :
  (exists low high,
     Examples.ints [5; 42; 1] !! 1%nat = Some low /\
     Examples.ints [5; 42; 1] !! 2%nat = Some high /\
     [VInt 5; VTuple [VInt 42; VInt 1]] !! 1%nat
     = Some (VTuple [low; high]) /\
     required_items (take 2 Examples.scalar_wide)
     = (required_items (take 1 Examples.scalar_wide) + 2)%nat) /\
  decode_returndata (Examples.returns Examples.scalar_wide)
    (Examples.ints [5; 42]) = Raise StopIteration.
Proof.
  destruct wide_integer_takes_two_elements as (Hitems & _ & Hret & _). split.
  - exact (Hitems Examples.scalar_wide (Examples.ints [5; 42; 1])
             [VInt 5; VTuple [VInt 42; VInt 1]] 1%nat
             (Examples.field "b" "Uint256") eq_refl eq_refl).
  - refine (proj2 (Hret (Examples.returns Examples.scalar_wide)
                     (Examples.ints [5; 42]) [5; 42] 1%nat
                     (Examples.field "b" "Uint256") eq_refl _ eq_refl eq_refl)
              _); cbn; lia.
Defined.

(** C2, as the spec has it, fails for return data of exactly one element:
    against the outputs [[a: Uint256]] the raw data [[10]] decodes to the
    bare element [10]; one element is consumed, no pair is built and nothing
    is raised. *)
Lemma wide_integer_of_single_element_not_paired :
  decode_returndata (Examples.returns Examples.wide) (Examples.ints [10])
  = Ok (VInt 10) /\
  (forall low high,
     decode_returndata (Examples.returns Examples.wide) (Examples.ints [10])
     <> Ok (VTuple [low; high])) /\
  (forall e,
     decode_returndata (Examples.returns Examples.wide) (Examples.ints [10])
     <> Raise e).
Proof.
  split; [reflexivity|]. split; intros; discriminate.
Qed.

(** * Further properties of the proxy resolver *)

Section MoreProxyFacts.

Variable instance_at : string -> result (option ContractInstance).
Variable client : option (Z -> Z -> result value).
Variable OZ_PROXY_STORAGE_KEY : Z.
Variable parse_address : string -> result Z.
Variable to_checksum_address : value -> result string.

Local Abbreviation probes :=
  (probe_proxy instance_at client OZ_PROXY_STORAGE_KEY parse_address).
Local Abbreviation resolve :=
  (get_proxy_info instance_at client OZ_PROXY_STORAGE_KEY parse_address
     to_checksum_address).

Lemma probe_proxy_bad_address address contract get_storage_at_sync e :
  has_method "implementation" contract.(view_methods) = false ->
  has_method "get_implementation" contract.(view_methods) = false ->
  client = Some get_storage_at_sync ->
  parse_address address = Raise e ->
  probes address contract = ([], Raise e).
Proof.
  intros Hm Hg Hc Ha. unfold probe_proxy.
  rewrite Hm, Hg, Hc. unfold silent, encode_address. rewrite Ha. reflexivity.
Qed.

(** X15: a probe that fails ends the resolution with its own exception and
    no later probe is tried: the exception of [implementation()], of
    [get_implementation()], of the storage read, or of parsing the address
    before the storage read, is what [get_proxy_info] raises. *)
Theorem failing_probe_propagates :
  forall (address : string) (contract : ContractInstance) (e : exception),
    instance_at address = Ok (Some contract) ->
    (has_method "implementation" contract.(view_methods) = true ->
     contract.(implementation) = Raise e ->
     resolve address
     = ([InstanceAt address; InstanceAt address; CallImplementation],
        Raise e)) /\
    (has_method "implementation" contract.(view_methods) = false ->
     has_method "get_implementation" contract.(view_methods) = true ->
     contract.(get_implementation) = Raise e ->
     resolve address
     = ([InstanceAt address; InstanceAt address; CallGetImplementation],
        Raise e)) /\
    (has_method "implementation" contract.(view_methods) = false ->
     has_method "get_implementation" contract.(view_methods) = false ->
     forall get_storage_at_sync,
       client = Some get_storage_at_sync ->
       (parse_address address = Raise e ->
        resolve address = ([InstanceAt address], Raise e)) /\
       (forall address_int,
          parse_address address = Ok address_int ->
          get_storage_at_sync address_int OZ_PROXY_STORAGE_KEY = Raise e ->
          resolve address
          = ([InstanceAt address;
              GetStorageAt address_int OZ_PROXY_STORAGE_KEY], Raise e))).
Proof.
  intros address contract e H.
  rewrite (get_proxy_info_eq _ _ _ _ _ address contract H).
  split; [|split].
  - intros Hm He.
    rewrite (probe_proxy_legacy _ _ _ _ _ _ H Hm), He. reflexivity.
  - intros Hm Hg He.
    rewrite (probe_proxy_argent_x _ _ _ _ _ _ H Hm Hg), He. reflexivity.
  - intros Hm Hg g Hc. split.
    + intros Ha.
      rewrite (probe_proxy_bad_address _ _ g e Hm Hg Hc Ha). reflexivity.
    + intros a Ha He.
      rewrite (probe_proxy_storage _ _ _ _ _ _ g a Hm Hg Hc Ha), He.
      reflexivity.
Qed.

(** X16: one resolution makes at most one probe (a getter call or a storage
    read) and looks the contract instance up at most twice, whatever the
    contract declares and whatever the calls return. *)
Theorem at_most_one_probe :
  forall (address : string),
    (length (List.filter is_probe_call (resolve address).1) <= 1)%nat /\
    (length (resolve address).1 <= 3)%nat.
Proof.
  intros address.
  destruct (instance_at address) as [[contract|]|e] eqn:H.
  - rewrite (get_proxy_info_eq _ _ _ _ _ address contract H). cbn [fst].
    destruct (has_method "implementation" contract.(view_methods)) eqn:Hm.
    { rewrite (probe_proxy_legacy _ _ _ _ _ _ H Hm). cbn. lia. }
    destruct (has_method "get_implementation" contract.(view_methods)) eqn:Hg.
    { rewrite (probe_proxy_argent_x _ _ _ _ _ _ H Hm Hg). cbn. lia. }
    assert ((exists g, client = Some g) \/ client = None) as [[g Hc]|Hc]
      by (destruct client; eauto).
    + destruct (parse_address address) as [a|e] eqn:Ha.
      * rewrite (probe_proxy_storage _ _ _ _ _ _ g a Hm Hg Hc Ha). cbn. lia.
      * rewrite (probe_proxy_bad_address _ _ g e Hm Hg Hc Ha). cbn. lia.
    + rewrite (probe_proxy_nothing _ _ _ _ _ _ Hm Hg Hc). cbn. lia.
  - rewrite (get_proxy_info_not_instance _ _ _ _ _ address H). cbn. lia.
  - unfold get_proxy_info. rewrite H. cbn. lia.
Qed.

(** X17: the storage-slot probe.  When the contract declares neither getter
    and the storage read returns [tgt], a descriptor comes back exactly when
    [tgt] is truthy and is not the string ["0x0"]; it is tagged
    [OPEN_ZEPPELIN] and holds the checksum of [tgt].  Only that one spelling
    of zero is the sentinel. *)
Theorem storage_slot_probe :
  forall (address : string) (contract : ContractInstance)
         (get_storage_at_sync : Z -> Z -> result value) (address_int : Z)
         (tgt : value),
    instance_at address = Ok (Some contract) ->
    has_method "implementation" contract.(view_methods) = false ->
    has_method "get_implementation" contract.(view_methods) = false ->
    client = Some get_storage_at_sync ->
    parse_address address = Ok address_int ->
    get_storage_at_sync address_int OZ_PROXY_STORAGE_KEY = Ok tgt ->
    (resolve address).2
    = if truthy tgt && negb (is_zero_sentinel tgt) then
        checksum ← to_checksum_address tgt;
        Ok (Some {| target := checksum; proxy_type := OPEN_ZEPPELIN |})
      else Ok None.
Proof.
  intros address contract g a tgt H Hm Hg Hc Ha Ht.
  rewrite (get_proxy_info_eq _ _ _ _ _ address contract H). cbn [snd].
  rewrite (probe_proxy_storage _ _ _ _ _ _ g a Hm Hg Hc Ha), Ht.
  cbn [snd mbind result_bind].
  destruct (is_zero_sentinel tgt) eqn:Hz.
  - rewrite andb_false_r. reflexivity.
  - rewrite andb_true_r. cbn [mbind result_bind].
    unfold proxy_info, decode_address.
    cbn [fst snd]. destruct (truthy tgt); [|reflexivity].
    destruct (to_checksum_address tgt); reflexivity.
Qed.

(** X18: a getter decides alone.  When the contract declares
    [implementation] and the call returns [tgt], the result is the [LEGACY]
    descriptor of [tgt] if [tgt] is truthy and nothing otherwise: a getter
    that returns zero yields no descriptor and neither [get_implementation]
    nor the storage slot is consulted. *)
Theorem legacy_getter_decides :
  forall (address : string) (contract : ContractInstance) (tgt : value),
    instance_at address = Ok (Some contract) ->
    has_method "implementation" contract.(view_methods) = true ->
    contract.(implementation) = Ok tgt ->
    resolve address
    = ([InstanceAt address; InstanceAt address; CallImplementation],
       if truthy tgt then
         checksum ← to_checksum_address tgt;
         Ok (Some {| target := checksum; proxy_type := LEGACY |})
       else Ok None).
Proof.
  intros address contract tgt H Hm Ht.
  rewrite (get_proxy_info_eq _ _ _ _ _ address contract H).
  rewrite (probe_proxy_legacy _ _ _ _ _ _ H Hm), Ht.
  cbn [fst snd fmap result_fmap mbind result_bind].
  unfold proxy_info, decode_address. cbn [fst snd].
  destruct (truthy tgt); [|reflexivity].
  destruct (to_checksum_address tgt); reflexivity.
Qed.

End MoreProxyFacts.

Lemma failing_probe_propagates_witness :
  get_proxy_info
    (fun _ => Ok (Some {| view_methods := ["implementation"%string];
                          implementation := Raise (NamedError "ClientError");
                          get_implementation := Ok (VInt 1) |}))
    Examples.zero_slot 99 (fun _ => Ok 5) Examples.checksum "0x5"
  = ([InstanceAt "0x5"; InstanceAt "0x5"; CallImplementation],
     Raise (NamedError "ClientError")).
Proof.
  refine (proj1 (failing_probe_propagates _ Examples.zero_slot 99
            (fun _ => Ok 5) Examples.checksum "0x5" _
            (NamedError "ClientError") _) _ _); reflexivity.
Defined.

Lemma storage_slot_probe_witness :
  (get_proxy_info (fun _ => Ok (Some Examples.no_getter))
     (Some (fun _ _ => Ok (VStr "0x00"))) 99 (fun _ => Ok 5)
     Examples.checksum "0x5").2
  = Ok (Some {| target := "0x00"; proxy_type := OPEN_ZEPPELIN |}).
Proof.
  refine (storage_slot_probe (fun _ => Ok (Some Examples.no_getter))
            (Some (fun _ _ => Ok (VStr "0x00"))) 99 (fun _ => Ok 5)
            Examples.checksum "0x5" Examples.no_getter
            (fun _ _ => Ok (VStr "0x00")) 5 (VStr "0x00") _ _ _ _ _ _);
    reflexivity.
Defined.

Lemma legacy_getter_decides_witness :
  get_proxy_info
    (fun _ => Ok (Some {| view_methods := ["implementation"%string];
                          implementation := Ok (VInt 0);
                          get_implementation := Ok (VInt 1) |}))
    (Some (fun _ _ => Ok (VStr "0x12"))) 99 (fun _ => Ok 5)
    Examples.checksum "0x5"
  = ([InstanceAt "0x5"; InstanceAt "0x5"; CallImplementation], Ok None).
Proof.
  refine (legacy_getter_decides _ (Some (fun _ _ => Ok (VStr "0x12"))) 99
            (fun _ => Ok 5) Examples.checksum "0x5" _ (VInt 0) _ _ _);
    reflexivity.
Defined.

(** * Properties of [create_transaction] *)

Section TransactionFacts.

Variable transaction_type_of : value -> result TransactionType.
Variable active_provider_chain_id : option (result value).
Variable to_checksum_address : value -> result string.
Variable contracts_get : string -> option (list MethodABI).
Variable get_selector_from_name : string -> Z.

Local Abbreviation create :=
  (create_transaction transaction_type_of active_provider_chain_id
     to_checksum_address contracts_get get_selector_from_name).

(** [create_transaction] as the sequence of its steps. *)
Lemma create_transaction_steps kwargs :
  create kwargs =
    (txn_type ← transaction_type_of (type_argument kwargs);
     txn_data ← with_chain_id active_provider_chain_id
                  (initial_txn_data kwargs);
     txn_data ← with_checksum_address to_checksum_address txn_data;
     match txn_type with
     | INVOKE_FUNCTION =>
         method ← match kwargs.(method_abi) with
                  | Some abi => Ok (Some abi)
                  | None =>
                      lookup_method to_checksum_address contracts_get
                        get_selector_from_name txn_data
                  end;
         txn_data ← convert_calldata txn_data;
         mret {| txn_cls := class_of txn_type; txn_method_abi := method;
                 txn_data := txn_data |}
     | _ =>
         mret {| txn_cls := class_of txn_type;
                 txn_method_abi := kwargs.(method_abi);
                 txn_data := txn_data |}
     end).
Proof.
  unfold create_transaction, type_argument.
  destruct (transaction_type_of _) as [[ | | |member]|]; reflexivity.
Qed.

Lemma with_chain_id_other d d' k :
  with_chain_id active_provider_chain_id d = Ok d' ->
  k <> "chain_id"%string -> d' !! k = d !! k.
Proof.
  unfold with_chain_id. intros H Hk.
  destruct (d !! "chain_id"%string), active_provider_chain_id as [[c|]|];
    inversion H; subst; try reflexivity.
  apply lookup_insert_ne. congruence.
Qed.

Lemma with_checksum_address_other d d' k :
  with_checksum_address to_checksum_address d = Ok d' ->
  k <> "contract_address"%string -> d' !! k = d !! k.
Proof.
  unfold with_checksum_address. intros H Hk.
  destruct (d !! "contract_address"%string) as [raw|];
    [|inversion H; reflexivity].
  destruct (to_checksum_address raw); inversion H; subst.
  apply lookup_insert_ne. congruence.
Qed.

Lemma convert_calldata_inv d d' :
  convert_calldata d = Ok d' ->
  (d' = d /\ (d !! "calldata"%string = None
              \/ d !! "calldata"%string = Some VNone)) \/
  (exists calldata items encoded_calldata,
     d !! "calldata"%string = Some calldata /\ calldata <> VNone /\
     iterate calldata = Ok items /\
     mapM encode_primitive_value items = Ok encoded_calldata /\
     d' = <["calldata"%string := VList encoded_calldata]> d).
Proof.
  unfold convert_calldata. intros H.
  destruct (d !! "calldata"%string) as [calldata|] eqn:Hc;
    [|inversion H; auto].
  assert (calldata = VNone \/ calldata <> VNone) as [->|Hne]
    by (destruct calldata; auto; right; discriminate).
  { inversion H; auto. }
  right.
  assert ((items ← iterate calldata;
           encoded_calldata ← mapM encode_primitive_value items;
           mret (<["calldata"%string := VList encoded_calldata]> d)) = Ok d')
    as H' by (destruct calldata; [congruence|exact H..]).
  destruct (iterate calldata) as [items|] eqn:Hi; [|discriminate].
  cbn [mbind result_bind] in H'.
  destruct (mapM encode_primitive_value items) as [enc|] eqn:He;
    [|discriminate].
  inversion H'; subst. exists calldata, items, enc. auto.
Qed.

Lemma convert_calldata_other d d' k :
  convert_calldata d = Ok d' ->
  k <> "calldata"%string -> d' !! k = d !! k.
Proof.
  intros H Hk.
  apply convert_calldata_inv in H
    as [[-> _]|(c & items & enc & _ & _ & _ & _ & ->)]; [reflexivity|].
  apply lookup_insert_ne. congruence.
Qed.

Lemma initial_txn_data_lookup kwargs k :
  initial_txn_data kwargs !! k =
    if String.eqb k "signature" then Some VNone
    else if String.eqb k "type" || String.eqb k "tx_type" then None
    else kwargs.(entries) !! k.
Proof.
  unfold initial_txn_data.
  destruct (String.eqb_spec k "signature") as [->|Hs].
  - apply lookup_insert_eq.
  - rewrite lookup_insert_ne by congruence.
    destruct (String.eqb_spec k "type") as [->|Ht].
    + apply lookup_delete_eq.
    + rewrite lookup_delete_ne by congruence.
      destruct (String.eqb_spec k "tx_type") as [->|Hx].
      * apply lookup_delete_eq.
      * apply lookup_delete_ne. congruence.
Qed.

(** What the steps leave of [txn_data] when the call is reached. *)
Lemma create_transaction_inv kwargs call :
  create kwargs = Ok call ->
  exists txn_type d1 d2,
    transaction_type_of (type_argument kwargs) = Ok txn_type /\
    with_chain_id active_provider_chain_id (initial_txn_data kwargs) = Ok d1 /\
    with_checksum_address to_checksum_address d1 = Ok d2 /\
    call.(txn_cls) = class_of txn_type /\
    match txn_type with
    | INVOKE_FUNCTION =>
        convert_calldata d2 = Ok call.(txn_data) /\
        match kwargs.(method_abi) with
        | Some abi => call.(txn_method_abi) = Some abi
        | None =>
            lookup_method to_checksum_address contracts_get
              get_selector_from_name d2 = Ok call.(txn_method_abi)
        end
    | _ => call.(txn_data) = d2 /\
           call.(txn_method_abi) = kwargs.(method_abi)
    end.
Proof.
  rewrite create_transaction_steps. intros H.
  destruct (transaction_type_of _) as [txn_type|] eqn:Ht; [|discriminate].
  cbn [mbind result_bind] in H.
  destruct (with_chain_id _ _) as [d1|] eqn:H1; [|discriminate].
  cbn [mbind result_bind] in H.
  destruct (with_checksum_address _ d1) as [d2|] eqn:H2; [|discriminate].
  cbn [mbind result_bind] in H.
  exists txn_type, d1, d2.
  do 3 (split; [first [assumption|reflexivity]|]).
  destruct txn_type as [ | | |member];
    try (inversion H; subst call; cbn; auto; fail).
  destruct kwargs.(method_abi) as [abi|].
  - cbn [mbind result_bind] in H.
    destruct (convert_calldata d2) as [d3|]; inversion H; subst call.
    cbn. auto.
  - destruct (lookup_method _ _ _ d2) as [method|] eqn:Hm; [|discriminate].
    cbn [mbind result_bind] in H.
    destruct (convert_calldata d2) as [d3|]; inversion H; subst call.
    cbn. auto.
Qed.

Lemma with_chain_id_given d c :
  d !! "chain_id"%string = Some c ->
  with_chain_id active_provider_chain_id d = Ok d.
Proof. unfold with_chain_id. intros ->. reflexivity. Qed.

(** X19: what reaches the constructor.  Whenever [create_transaction] gets
    to its call, the data it passes has [signature] set to [None] whatever
    the caller gave, has neither [type] nor [tx_type], keeps a [chain_id] the
    caller gave, and passes every other keyword on unchanged, apart from
    [contract_address] and [calldata]. *)
Theorem create_transaction_data :
  forall (kwargs : keywords) (call : constructor_call),
    create kwargs = Ok call ->
    call.(txn_data) !! "signature"%string = Some VNone /\
    call.(txn_data) !! "type"%string = None /\
    call.(txn_data) !! "tx_type"%string = None /\
    (forall c, kwargs.(entries) !! "chain_id"%string = Some c ->
               call.(txn_data) !! "chain_id"%string = Some c) /\
    (forall k : string,
       ~ In k ["signature"; "type"; "tx_type"; "chain_id";
               "contract_address"; "calldata"]%string ->
       call.(txn_data) !! k = kwargs.(entries) !! k).
Proof.
  intros kwargs call H.
  apply create_transaction_inv in H
    as (txn_type & d1 & d2 & _ & H1 & H2 & _ & Hend).
  assert (forall k, k <> "calldata"%string ->
                    call.(txn_data) !! k = d2 !! k) as Hdata.
  { intros k Hk. destruct txn_type as [ | | |member];
      try (destruct Hend as [-> _]; reflexivity).
    destruct Hend as [Hc _]. eapply convert_calldata_other; eassumption. }
  assert (forall k, k <> "calldata"%string ->
                    k <> "contract_address"%string ->
                    k <> "chain_id"%string ->
                    call.(txn_data) !! k = initial_txn_data kwargs !! k)
    as Hinit.
  { intros k Hc Ha Hi. rewrite (Hdata k Hc).
    rewrite (with_checksum_address_other _ _ k H2 Ha).
    apply (with_chain_id_other _ _ k H1 Hi). }
  split; [rewrite Hinit by discriminate; apply initial_txn_data_lookup|].
  split; [rewrite Hinit by discriminate; apply initial_txn_data_lookup|].
  split; [rewrite Hinit by discriminate; apply initial_txn_data_lookup|].
  split.
  - intros c Hc. rewrite Hdata by discriminate.
    rewrite (with_checksum_address_other _ _ _ H2) by discriminate.
    assert (initial_txn_data kwargs !! "chain_id"%string = Some c) as Hi
      by (rewrite initial_txn_data_lookup; exact Hc).
    rewrite (with_chain_id_given _ _ Hi) in H1. inversion H1; subst.
    exact Hi.
  - intros k Hk. cbn [In] in Hk.
    rewrite Hinit by (intros ->; apply Hk; auto 10).
    rewrite initial_txn_data_lookup.
    destruct (String.eqb_spec k "signature"); [exfalso; auto 10|].
    destruct (String.eqb_spec k "type"); [exfalso; auto 10|].
    destruct (String.eqb_spec k "tx_type"); [exfalso; auto 10|].
    reflexivity.
Qed.

Lemma encode_primitive_value_fixed v r :
  encode_primitive_value v = Ok r -> encode_primitive_value r = Ok r.
Proof.
  intros H. pose proof (encode_primitive_value_result v r H) as Hr.
  destruct v as [ |n|s|b|b|l|l|d]; try (subst r; reflexivity).
  - destruct (is_0x_prefixed s) eqn:Hs.
    + destruct Hr as [n ->]. reflexivity.
    + subst r. cbn. rewrite Hs. reflexivity.
  - destruct Hr as [n ->]. reflexivity.
Qed.

(** X20: the calldata of an invoke transaction is converted, that of the
    other transactions is not.  When the caller gives [calldata] and the call
    is reached: for an invoke transaction calldata that is not [None] is
    replaced by the list of its items, each coerced (so coercing them again
    changes nothing); for a deploy or declare transaction, which return
    before the conversion, the calldata is passed on as given. *)
Theorem create_transaction_calldata :
  forall (kwargs : keywords) (call : constructor_call) (calldata : value),
    create kwargs = Ok call ->
    kwargs.(entries) !! "calldata"%string = Some calldata ->
    match call.(txn_cls) with
    | Some InvokeFunctionTransaction =>
        (calldata = VNone /\
         call.(txn_data) !! "calldata"%string = Some VNone) \/
        (exists items encoded_calldata,
           iterate calldata = Ok items /\
           mapM encode_primitive_value items = Ok encoded_calldata /\
           call.(txn_data) !! "calldata"%string
           = Some (VList encoded_calldata) /\
           Forall (fun v => encode_primitive_value v = Ok v) encoded_calldata)
    | _ => call.(txn_data) !! "calldata"%string = Some calldata
    end.
Proof.
  intros kwargs call calldata H Hc.
  apply create_transaction_inv in H
    as (txn_type & d1 & d2 & _ & H1 & H2 & Hcls & Hend).
  assert (d2 !! "calldata"%string = Some calldata) as Hd2.
  { rewrite (with_checksum_address_other _ _ _ H2) by discriminate.
    rewrite (with_chain_id_other _ _ _ H1) by discriminate.
    rewrite initial_txn_data_lookup. exact Hc. }
  rewrite Hcls.
  destruct txn_type as [ | | |member]; cbn [class_of];
    try (destruct Hend as [-> _]; exact Hd2).
  destruct Hend as [Hconv _].
  apply convert_calldata_inv in Hconv
    as [[-> [Hn|Hn]]|(c & items & enc & Hc' & Hne & Hi & He & ->)].
  - congruence.
  - left. split; congruence.
  - right. assert (c = calldata) as -> by congruence.
    exists items, enc. split; [assumption|]. split; [assumption|].
    split; [apply lookup_insert_eq|].
    apply mapM_Ok_inv in He. clear -He.
    induction He as [|x y l k Hxy _ IH]; constructor; [|exact IH].
    eapply encode_primitive_value_fixed. exact Hxy.
Qed.

Lemma select_method_app selector (l : list MethodABI) (abi : MethodABI) :
  select_method get_selector_from_name selector (l ++ [abi])
  = if selector_matches selector (get_selector_from_name abi.(method_name))
    then Some abi
    else select_method get_selector_from_name selector l.
Proof. unfold select_method. rewrite fold_left_app. reflexivity. Qed.

(** X21: the last match wins.  The loop over the mutable methods of the
    contract leaves the last method whose selector equals the given one, and
    none when no selector does; the order of the methods decides between two
    methods with one selector. *)
Theorem select_method_last_match :
  forall (selector : value) (mutable_methods : list MethodABI),
    let matches (abi : MethodABI) :=
      selector_matches selector (get_selector_from_name abi.(method_name)) in
    match select_method get_selector_from_name selector mutable_methods with
    | Some abi =>
        exists before after,
          mutable_methods = before ++ abi :: after /\
          matches abi = true /\
          Forall (fun other => matches other = false) after
    | None => Forall (fun other => matches other = false) mutable_methods
    end.
Proof.
  intros selector mutable_methods matches.
  induction mutable_methods as [|abi l IH] using rev_ind.
  - constructor.
  - rewrite select_method_app. fold (matches abi).
    destruct (matches abi) eqn:Hm.
    + exists l, []. auto.
    + destruct (select_method get_selector_from_name selector l) as [found|].
      * destruct IH as (before & after & -> & Hf & Hafter).
        exists before, (after ++ [abi]). rewrite <- app_assoc.
        split; [reflexivity|]. split; [assumption|].
        apply Forall_app. auto.
      * apply Forall_app. auto.
Qed.

End TransactionFacts.

(** X22: a method the caller gives is kept, and then the contracts and the
    selector hash are never consulted: the outcome is the same whatever they
    are, and no contract has to be known. *)
Theorem create_transaction_given_method :
  forall (transaction_type_of : value -> result TransactionType)
         (active_provider_chain_id : option (result value))
         (to_checksum_address : value -> result string)
         (contracts_get contracts_get' : string -> option (list MethodABI))
         (get_selector_from_name get_selector_from_name' : string -> Z)
         (kwargs : keywords) (abi : MethodABI),
    kwargs.(method_abi) = Some abi ->
    create_transaction transaction_type_of active_provider_chain_id
      to_checksum_address contracts_get get_selector_from_name kwargs
    = create_transaction transaction_type_of active_provider_chain_id
        to_checksum_address contracts_get' get_selector_from_name' kwargs /\
    (forall call,
       create_transaction transaction_type_of active_provider_chain_id
         to_checksum_address contracts_get get_selector_from_name kwargs
       = Ok call ->
       call.(txn_method_abi) = Some abi).
Proof.
  intros tto chain tca cg cg' sel sel' kwargs abi Habi. split.
  - rewrite !create_transaction_steps. rewrite Habi. reflexivity.
  - intros call H.
    apply create_transaction_inv in H
      as (txn_type & d1 & d2 & _ & _ & _ & _ & Hend).
    rewrite Habi in Hend.
    destruct txn_type; destruct Hend as [_ Hm]; exact Hm.
Qed.

Lemma create_transaction_data_witness :
  TransactionCalls.invoke_call.(txn_data) !! "signature"%string = Some VNone.
Proof.
  refine (proj1 (create_transaction_data TransactionExamples.type_of None
            Examples.checksum TransactionExamples.contracts
            TransactionExamples.selector TransactionExamples.invoke
            TransactionCalls.invoke_call _)).
  vm_compute. reflexivity.
Defined.

Lemma create_transaction_calldata_witness :
  TransactionCalls.deploy_call.(txn_data) !! "calldata"%string
  = Some (VTuple [VStr "0x10"; VInt 2]).
Proof.
  refine (create_transaction_calldata TransactionExamples.type_of None
            Examples.checksum TransactionExamples.contracts
            TransactionExamples.selector TransactionExamples.deploy
            TransactionCalls.deploy_call (VTuple [VStr "0x10"; VInt 2]) _ _).
  - vm_compute. reflexivity.
  - vm_compute. reflexivity.
Defined.

Lemma create_transaction_given_method_witness :
  create_transaction TransactionExamples.type_of None Examples.checksum
    TransactionExamples.contracts TransactionExamples.selector
    TransactionExamples.invoke_with_method
  = create_transaction TransactionExamples.type_of None Examples.checksum
      (fun _ => None) (fun _ => 0) TransactionExamples.invoke_with_method.
Proof.
  refine (proj1 (create_transaction_given_method TransactionExamples.type_of
            None Examples.checksum TransactionExamples.contracts
            (fun _ => None) TransactionExamples.selector (fun _ => 0)
            TransactionExamples.invoke_with_method
            (TransactionExamples.method "given") _)).
  reflexivity.
Defined.

(** * Arrays passed without their lengths *)

Lemma is_arr_len_named method_inputs last_index index input_type :
  is_arr_len method_inputs last_index index input_type = Ok true ->
  named_len input_type = true.
Proof.
  unfold is_arr_len, named_len.
  destruct input_type.(name) as [input_name|]; [|discriminate].
  destruct (endswith input_name "_len"); [reflexivity|discriminate].
Qed.

Lemma _pre_encode_container a x :
  is_container a = true -> _pre_encode_value a = Ok x ->
  match x with VInt _ => False | _ => True end.
Proof.
  intros Hc H. destruct a as [ |n|s|b|b|l|l|d]; try discriminate.
  - apply _pre_encode_sequence_length in H as (l' & -> & _). exact I.
  - apply _pre_encode_sequence_length in H as (l' & -> & _). exact I.
  - rewrite _pre_encode_value_dict in H.
    apply fmap_Ok_inv in H as (d' & _ & ->). exact I.
Qed.

Lemma encode_args_loop_without_lengths method_inputs call_args :
  forall (args : list value) (sig : list ABIType) (st : encoder_state),
    st.(did_process_array_during_arr_len) = false ->
    Forall (fun at_ => named_len at_.2 = true -> is_container at_.1 = true)
      (zip args sig) ->
    pre_encoded_args <$>
      encode_args_loop method_inputs call_args
        (last_index_of method_inputs call_args) (zip args sig) st
    = (fun l => st.(pre_encoded_args) ++ l) <$>
        mapM _pre_encode_value (take (length sig) args).
Proof.
  induction args as [|a args IH]; intros sig st Hdid Hall.
  - rewrite take_nil. cbn. rewrite app_nil_r. reflexivity.
  - destruct sig as [|t sig].
    + cbn. rewrite app_nil_r. reflexivity.
    + cbn [zip_with] in Hall. inversion Hall as [|? ? Hat Hall']; subst.
      cbn [fst snd] in Hat.
      cbn [zip_with encode_args_loop length take]. rewrite mapM_cons.
      assert (encode_arg method_inputs call_args
                (last_index_of method_inputs call_args) st a t
              = x ← _pre_encode_value a;
                mret {| pre_encoded_args := st.(pre_encoded_args) ++ [x];
                        index := S st.(index);
                        did_process_array_during_arr_len := false |})
        as ->.
      { unfold encode_arg. rewrite Hdid.
        destruct (endswith t.(type) "*"); [reflexivity|].
        destruct (is_arr_len_cases method_inputs
                    (last_index_of method_inputs call_args) st.(index) t)
          as [Hno|(Hyes & _)]; [unfold last_index_of; lia| |].
        - rewrite Hno. reflexivity.
        - rewrite Hyes. cbn [mbind result_bind].
          pose proof (Hat (is_arr_len_named _ _ _ _ Hyes)) as Hc.
          destruct (_pre_encode_value a) as [x|] eqn:Hx; [|reflexivity].
          pose proof (_pre_encode_container a x Hc Hx) as Hnot.
          cbn [mbind result_bind]. destruct x; try reflexivity.
          contradiction. }
      destruct (_pre_encode_value a) as [x|e]; [|reflexivity].
      cbn [mbind result_bind mret result_ret].
      rewrite IH by (try assumption; reflexivity).
      cbn [pre_encoded_args].
      destruct (mapM _pre_encode_value (take (length sig) args)) as [k|];
        [|reflexivity].
      cbn. rewrite <- app_assoc. reflexivity.
Qed.

(** X23: arrays passed without their lengths.  When every argument that
    meets an input named with the [_len] suffix is a list, a tuple or a
    dictionary (the caller passes the arrays and leaves the lengths out), no
    position is skipped: the pre-encoded list is the argument-wise
    pre-encoding, in order, of the arguments that have an input. *)
Theorem pre_encode_args_without_lengths :
  forall (method_inputs : list ABIType) (call_args : list value),
    Forall (fun at_ => named_len at_.2 = true -> is_container at_.1 = true)
      (zip call_args method_inputs) ->
    pre_encode_args method_inputs call_args
    = mapM _pre_encode_value (take (length method_inputs) call_args).
Proof.
  intros method_inputs call_args Hall. unfold pre_encode_args.
  fold (last_index_of method_inputs call_args).
  rewrite encode_args_loop_without_lengths by (try assumption; reflexivity).
  cbn [pre_encoded_args].
  destruct (mapM _pre_encode_value _); reflexivity.
Qed.

Lemma pre_encode_args_without_lengths_witness :
  pre_encode_args Examples.two_arrays
    [VList (Examples.ints [1; 2; 3]); VTuple (Examples.ints [4; 5])]
  = mapM _pre_encode_value
      (take 4 [VList (Examples.ints [1; 2; 3]); VTuple (Examples.ints [4; 5])]).
Proof.
  apply (pre_encode_args_without_lengths Examples.two_arrays).
  repeat constructor.
Defined.
